(** * ProblemRegistry: the on-ledger problem / solution / bounty registry

    A shallow embedding of [sources/ProblemRegistry.move] (module
    [defix::ProblemRegistry]) and the properties of its four entry
    functions.

    Conventions of the embedding:
    - a [u64] is a [Z] in the range [0 .. u64_max]; Move's checked addition
      aborts on overflow, which [checked_add] writes out;
    - an [address] is an opaque number; a [&signer] is the address it signs for;
    - [vector<u8>] is a list of bytes, [vector<Solution>] a list;
    - [Table<u64, Problem>] and the global storage of [Registry] resources are
      finite maps;
    - an entry function maps the state before the call to an [outcome]: the
      state after the last write together with either [Done] or the abort
      that stopped it.  The ledger commits the writes of a transaction only
      when it is [Done] ([commit]). *)

From Stdlib Require Import ZArith Lia Strings.Byte.
From stdpp Require Import gmap list.

Local Open Scope Z_scope.

(** ** Machine integers *)

Definition u64_max : Z := 18446744073709551615.

Definition is_u64 (n : Z) : Prop := 0 ≤ n ≤ u64_max.

(** [a + b] on [u64]: the sum, or no value when it does not fit. *)
Definition checked_add (a b : Z) : option Z :=
  if decide (a + b ≤ u64_max) then Some (a + b) else None.

Definition address := N.
Definition bytes := list byte.

(** ** Data model *)

Module Solution.
Record t := mk {
  id : Z;
  solver : address;
  cid : bytes;
  votes : Z;
}.

(** [s_ref.votes = v] *)
Definition set_votes (v : Z) (s : t) : t :=
  {| id := id s; solver := solver s; cid := cid s; votes := v |}.
End Solution.

Module Problem.
Record t := mk {
  id : Z;
  owner : address;
  cid : bytes;
  lat : bytes;
  lng : bytes;
  bounty_octas : Z;
  open : bool;
  solutions : list Solution.t;
  chosen : option Z;
}.

(** A write through [&mut p_ref.solutions]. *)
Definition set_solutions (l : list Solution.t) (p : t) : t :=
  {| id := id p; owner := owner p; cid := cid p; lat := lat p; lng := lng p;
     bounty_octas := bounty_octas p; open := open p; solutions := l;
     chosen := chosen p |}.

(** [p_ref.open = false; p_ref.chosen = option::some(solution_id)] *)
Definition close (solution_id : Z) (p : t) : t :=
  {| id := id p; owner := owner p; cid := cid p; lat := lat p; lng := lng p;
     bounty_octas := bounty_octas p; open := false; solutions := solutions p;
     chosen := Some solution_id |}.
End Problem.

Record Registry := mkRegistry {
  next_problem_id : Z;
  problems : gmap Z Problem.t;
}.

(** The part of the ledger the module reads and writes: the [Registry]
    resource published under each address, and the [AptosCoin] balance of
    each address. *)
Record State := mkState {
  registries : gmap address Registry;
  balances : gmap address Z;
}.

Definition set_registry (addr : address) (reg : Registry) (s : State) : State :=
  {| registries := <[addr := reg]> (registries s); balances := balances s |}.

Definition set_balances (b : gmap address Z) (s : State) : State :=
  {| registries := registries s; balances := b |}.

(** A write through [p_ref], the [&mut Problem] borrowed from the table of
    the registry at [addr]. *)
Definition set_problem (addr : address) (reg : Registry) (problem_id : Z)
    (p : Problem.t) (s : State) : State :=
  set_registry addr
    {| next_problem_id := next_problem_id reg;
       problems := <[problem_id := p]> (problems reg) |} s.

(** ** Aborts *)

Inductive abort :=
  | MISSING_DATA            (* borrow_global_mut: no Registry at the address *)
  | ARITHMETIC_ERROR        (* u64 overflow *)
  | TABLE_EALREADY_EXISTS   (* table::add on a key that is present *)
  | TABLE_ENOT_FOUND        (* table::borrow_mut on a key that is absent *)
  | ECOIN_INSUFFICIENT      (* coin::transfer: balance below the amount *)
  | ABORT (code : Z).       (* assert!(_, code) and abort code *)

Inductive outcome :=
  | Done (s : State)
  | Aborted (e : abort) (s : State).

(** What the ledger keeps of a transaction started in [s]: the writes of a
    transaction that aborts are dropped. *)
Definition commit (s : State) (o : outcome) : State :=
  match o with
  | Done s' => s'
  | Aborted _ _ => s
  end.

(** ** Coins *)

Definition balance (b : gmap address Z) (a : address) : Z := default 0 (b !! a).

(** Modelled from the spec: [coin::transfer<AptosCoin>] belongs to the Aptos
    framework and is not among the sources.  Following section 4.5 it moves
    [amount] from the balance of [from] to the balance of [to], and fails,
    changing nothing, when the balance of [from] is insufficient. *)
Definition coin_transfer (from to : address) (amount : Z) (b : gmap address Z)
    : option (gmap address Z) :=
  if decide (balance b from < amount) then None
  else
    let b1 := <[from := balance b from - amount]> b in
    Some (<[to := balance b1 to + amount]> b1).

(** ** The module *)

(** [fun ensure_registry(account: &signer)] *)
Definition ensure_registry (account : address) (s : State) : State :=
  let addr := account in
  match registries s !! addr with
  | None => set_registry addr {| next_problem_id := 1; problems := ∅ |} s
  | Some _ => s
  end.

(** [public entry fun create_problem] *)
Definition create_problem (account : address) (cid lat lng : bytes)
    (bounty_octas : Z) (s : State) : outcome :=
  let s := ensure_registry account s in
  let addr := account in
  match registries s !! addr with
  | None => Aborted MISSING_DATA s
  | Some reg =>
      let id := next_problem_id reg in
      match checked_add id 1 with
      | None => Aborted ARITHMETIC_ERROR s
      | Some n =>
          let reg := {| next_problem_id := n; problems := problems reg |} in
          let s := set_registry addr reg s in
          let p := {| Problem.id := id; Problem.owner := addr;
                      Problem.cid := cid; Problem.lat := lat;
                      Problem.lng := lng;
                      Problem.bounty_octas := bounty_octas;
                      Problem.open := true; Problem.solutions := [];
                      Problem.chosen := None |} in
          match problems reg !! id with
          | Some _ => Aborted TABLE_EALREADY_EXISTS s
          | None => Done (set_problem addr reg id p s)
          end
      end
  end.

(** [public entry fun add_solution] *)
Definition add_solution (account : address) (problem_id : Z)
    (solver_addr : address) (cid : bytes) (s : State) : outcome :=
  let addr := account in
  match registries s !! addr with
  | None => Aborted MISSING_DATA s
  | Some reg =>
      match problems reg !! problem_id with
      | None => Aborted TABLE_ENOT_FOUND s
      | Some p_ref =>
          if negb (Problem.open p_ref) then Aborted (ABORT 1) s
          else if negb (bool_decide (solver_addr = account)) then
            Aborted (ABORT 2) s
          else
            match checked_add (Z.of_nat (length (Problem.solutions p_ref))) 1 with
            | None => Aborted ARITHMETIC_ERROR s
            | Some new_id =>
                let sol := {| Solution.id := new_id;
                              Solution.solver := solver_addr;
                              Solution.cid := cid; Solution.votes := 0 |} in
                Done (set_problem addr reg problem_id
                        (Problem.set_solutions
                           (Problem.solutions p_ref ++ [sol]) p_ref) s)
            end
      end
  end.

(** The scan shared by [vote_solution] and [release_reward]:
    [while (i < len) { s_ref = borrow_mut(v, i); if (s_ref.id == solution_id)
    ...; i = i + 1 }], run on the elements from index [i] on.  It stops at the
    first element whose id is [solution_id] and yields its index and the
    element; [None] when the loop runs to [len]. *)
Fixpoint scan (solution_id : Z) (i : nat) (l : list Solution.t)
    : option (nat * Solution.t) :=
  match l with
  | [] => None
  | s_ref :: rest =>
      if bool_decide (Solution.id s_ref = solution_id) then Some (i, s_ref)
      else scan solution_id (S i) rest
  end.

(** [public entry fun vote_solution] *)
Definition vote_solution (_voter : address) (problem_id solution_id : Z)
    (s : State) : outcome :=
  let addr := _voter in
  match registries s !! addr with
  | None => Aborted MISSING_DATA s
  | Some reg =>
      match problems reg !! problem_id with
      | None => Aborted TABLE_ENOT_FOUND s
      | Some p_ref =>
          if negb (Problem.open p_ref) then Aborted (ABORT 3) s
          else
            match scan solution_id 0 (Problem.solutions p_ref) with
            | Some (i, s_ref) =>
                match checked_add (Solution.votes s_ref) 1 with
                | None => Aborted ARITHMETIC_ERROR s
                | Some v =>
                    Done (set_problem addr reg problem_id
                            (Problem.set_solutions
                               (<[i := Solution.set_votes v s_ref]>
                                  (Problem.solutions p_ref)) p_ref) s)
                end
            | None => Aborted (ABORT 4) s
            end
      end
  end.

(** [public entry fun release_reward] *)
Definition release_reward (owner : address) (problem_id solution_id : Z)
    (s : State) : outcome :=
  let addr := owner in
  match registries s !! addr with
  | None => Aborted MISSING_DATA s
  | Some reg =>
      match problems reg !! problem_id with
      | None => Aborted TABLE_ENOT_FOUND s
      | Some p_ref =>
          if negb (bool_decide (Problem.owner p_ref = addr)) then
            Aborted (ABORT 5) s
          else if negb (Problem.open p_ref) then Aborted (ABORT 6) s
          else
            let solver_found :=
              match scan solution_id 0 (Problem.solutions p_ref) with
              | Some (_, s_ref) => Solution.solver s_ref
              | None => addr
              end in
            if negb (bool_decide (solver_found ≠ addr)) then
              Aborted (ABORT 7) s
            else
              match coin_transfer owner solver_found
                      (Problem.bounty_octas p_ref) (balances s) with
              | None => Aborted ECOIN_INSUFFICIENT s
              | Some b =>
                  let s := set_balances b s in
                  Done (set_problem addr reg problem_id
                          (Problem.close solution_id p_ref) s)
              end
      end
  end.

(** ** Transactions *)

(** A call of one of the four entry functions, with its signer. *)
Inductive call :=
  | CreateProblem (account : address) (cid lat lng : bytes) (bounty_octas : Z)
  | AddSolution (account : address) (problem_id : Z) (solver_addr : address)
      (cid : bytes)
  | VoteSolution (_voter : address) (problem_id solution_id : Z)
  | ReleaseReward (owner : address) (problem_id solution_id : Z).

Definition exec (c : call) (s : State) : outcome :=
  match c with
  | CreateProblem account cid lat lng bounty_octas =>
      create_problem account cid lat lng bounty_octas s
  | AddSolution account problem_id solver_addr cid =>
      add_solution account problem_id solver_addr cid s
  | VoteSolution _voter problem_id solution_id =>
      vote_solution _voter problem_id solution_id s
  | ReleaseReward owner problem_id solution_id =>
      release_reward owner problem_id solution_id s
  end.

(** The [u64] arguments of a call are in range. *)
Definition well_typed (c : call) : Prop :=
  match c with
  | CreateProblem _ _ _ _ bounty_octas => is_u64 bounty_octas
  | AddSolution _ problem_id _ _ => is_u64 problem_id
  | VoteSolution _ problem_id solution_id
  | ReleaseReward _ problem_id solution_id =>
      is_u64 problem_id ∧ is_u64 solution_id
  end.

(** The states the module can be in: no registry is published at genesis,
    the module's transactions run one after the other, and coins move
    through other modules at any time. *)
Inductive reachable : State → Prop :=
  | reachable_genesis b :
      reachable {| registries := ∅; balances := b |}
  | reachable_coins s b :
      reachable s → reachable (set_balances b s)
  | reachable_call s c :
      reachable s → well_typed c → reachable (commit s (exec c s)).

(** ** Invariants *)

(** A property of every registry, given the address it is published at. *)
Definition every_registry (P : address → Registry → Prop) (s : State) : Prop :=
  ∀ a reg, registries s !! a = Some reg → P a reg.

(** A property of every problem of a registry. *)
Definition every_problem (P : address → Problem.t → Prop)
    (a : address) (reg : Registry) : Prop :=
  ∀ k p, problems reg !! k = Some p → P a p.

(** Section 3: the counter is above every key of the table. *)
Definition counter_above_keys (_ : address) (reg : Registry) : Prop :=
  ∀ k, is_Some (problems reg !! k) → k < next_problem_id reg.

(** The keys of the table are the ids handed out so far: [1] up to the
    counter, without a gap, and each problem is stored under its own id. *)
Definition keys_contiguous (_ : address) (reg : Registry) : Prop :=
  1 ≤ next_problem_id reg ≤ u64_max ∧
  (∀ k, is_Some (problems reg !! k) ↔ 1 ≤ k < next_problem_id reg) ∧
  (∀ k p, problems reg !! k = Some p → Problem.id p = k).

(** Section 3: [chosen] is set exactly when the problem is closed. *)
Definition chosen_iff_closed (_ : address) (p : Problem.t) : Prop :=
  is_Some (Problem.chosen p) ↔ Problem.open p = false.

(** The owner of a problem is the address its registry is published at. *)
Definition owned_by_registry (a : address) (p : Problem.t) : Prop :=
  Problem.owner p = a.

(** The solver of every solution is the address of the registry. *)
Definition solved_by_registry (a : address) (p : Problem.t) : Prop :=
  ∀ i sol, Problem.solutions p !! i = Some sol → Solution.solver sol = a.

(** The id of a solution is its position plus one. *)
Definition ids_by_position (_ : address) (p : Problem.t) : Prop :=
  ∀ i sol, Problem.solutions p !! i = Some sol →
    Solution.id sol = Z.of_nat i + 1.

(** ** What a successful call does to a registry *)

(** The problem [create_problem] inserts. *)
Definition new_problem (id : Z) (addr : address) (cid lat lng : bytes)
    (bounty_octas : Z) : Problem.t :=
  {| Problem.id := id; Problem.owner := addr; Problem.cid := cid;
     Problem.lat := lat; Problem.lng := lng;
     Problem.bounty_octas := bounty_octas; Problem.open := true;
     Problem.solutions := []; Problem.chosen := None |}.

(** The registry [ensure_registry] leaves at an address. *)
Definition ensured (o : option Registry) : Registry :=
  default {| next_problem_id := 1; problems := ∅ |} o.
Arguments ensured : simpl never.

(** The writes of the entry functions to a problem of the registry at [a]. *)
Inductive problem_step (a : address) : Problem.t → Problem.t → Prop :=
  | step_add p cid :
      Problem.open p = true →
      Z.of_nat (length (Problem.solutions p)) + 1 ≤ u64_max →
      problem_step a p
        (Problem.set_solutions
           (Problem.solutions p ++
              [{| Solution.id := Z.of_nat (length (Problem.solutions p)) + 1;
                  Solution.solver := a; Solution.cid := cid;
                  Solution.votes := 0 |}]) p)
  | step_vote p solution_id i s_ref :
      Problem.open p = true →
      scan solution_id 0 (Problem.solutions p) = Some (i, s_ref) →
      Solution.votes s_ref + 1 ≤ u64_max →
      problem_step a p
        (Problem.set_solutions
           (<[i := Solution.set_votes (Solution.votes s_ref + 1) s_ref]>
              (Problem.solutions p)) p)
  | step_release p solution_id :
      Problem.open p = true →
      Problem.owner p = a →
      problem_step a p (Problem.close solution_id p).

(** The writes of the entry functions to the registry at [a]; the first
    argument is what is published at [a] before the call. *)
Inductive registry_step (a : address) : option Registry → Registry → Prop :=
  | step_create o cid lat lng bounty_octas :
      problems (ensured o) !! next_problem_id (ensured o) = None →
      next_problem_id (ensured o) + 1 ≤ u64_max →
      registry_step a o
        {| next_problem_id := next_problem_id (ensured o) + 1;
           problems :=
             <[next_problem_id (ensured o) :=
                 new_problem (next_problem_id (ensured o)) a cid lat lng
                   bounty_octas]> (problems (ensured o)) |}
  | step_problem reg k p p' :
      problems reg !! k = Some p →
      problem_step a p p' →
      registry_step a (Some reg)
        {| next_problem_id := next_problem_id reg;
           problems := <[k := p']> (problems reg) |}.

(** [P] holds of what [ensure_registry] publishes and is kept by every step. *)
Definition step_closed (P : address → Registry → Prop) : Prop :=
  ∀ a o reg', registry_step a o reg' → P a (ensured o) → P a reg'.

(** [P] holds of a new problem and is kept by every write to a problem. *)
Definition problem_step_closed (P : address → Problem.t → Prop) : Prop :=
  (∀ a id cid lat lng bounty_octas,
     P a (new_problem id a cid lat lng bounty_octas)) ∧
  (∀ a p p', problem_step a p p' → P a p → P a p').

(** The signer of a call. *)
Definition signer (c : call) : address :=
  match c with
  | CreateProblem a _ _ _ _ | AddSolution a _ _ _
  | VoteSolution a _ _ | ReleaseReward a _ _ => a
  end.

(** The id the next [create_problem] signed by [a] allocates: [let id =
    reg.next_problem_id], read after [ensure_registry]. *)
Definition next_id (a : address) (s : State) : Z :=
  next_problem_id (ensured (registries s !! a)).

(** The arguments of one [create_problem] call, after the signer. *)
Record problem_args := mkArgs {
  arg_cid : bytes;
  arg_lat : bytes;
  arg_lng : bytes;
  arg_bounty_octas : Z;
}.

(** Successive [create_problem] transactions signed by [account], one for
    each entry of [l]. *)
Fixpoint create_problems (account : address) (l : list problem_args)
    (s : State) : State :=
  match l with
  | [] => s
  | x :: l =>
      create_problems account l
        (commit s
           (create_problem account (arg_cid x) (arg_lat x) (arg_lng x)
              (arg_bounty_octas x) s))
  end.

(** The transactions of [l], one after the other. *)
Fixpoint run (l : list call) (s : State) : State :=
  match l with
  | [] => s
  | c :: l => run l (commit s (exec c s))
  end.

(** ** The scenario of section 8 *)

Module Scenario.
Definition A : address := 10%N.
Definition B : address := 11%N.
Definition C : address := 12%N.

Definition Qm111 : bytes := ["Q"; "m"; "1"; "1"; "1"]%byte.
Definition Qm222 : bytes := ["Q"; "m"; "2"; "2"; "2"]%byte.
Definition lat : bytes := ["3"; "7"; "."; "7"; "7"]%byte.
Definition lng : bytes := ["-"; "1"; "2"; "2"; "."; "4"; "2"]%byte.
Definition bounty : Z := 10000000.

(** No registry yet; [A] holds the bounty. *)
Definition genesis : State :=
  {| registries := ∅; balances := {[A := bounty]} |}.

(** After [create_problem(owner=A, "Qm111", "37.77", "-122.42", 10_000_000)]. *)
Definition created : State :=
  commit genesis (create_problem A Qm111 lat lng bounty genesis).

(** After [A] has proposed a solution to its own problem. *)
Definition solved : State :=
  commit created (add_solution A 1 A Qm222 created).

(** After [A] has voted for it. *)
Definition voted : State :=
  commit solved (vote_solution A 1 1 solved).

(** Solution 1, crediting [solver], with [votes] votes. *)
Definition solution1 (solver : address) (votes : Z) : Solution.t :=
  {| Solution.id := 1; Solution.solver := solver; Solution.cid := Qm222;
     Solution.votes := votes |}.

(** Problem 1 of [A], open, with the solutions [l]. *)
Definition problem1 (l : list Solution.t) : Problem.t :=
  Problem.set_solutions l (new_problem 1 A Qm111 lat lng bounty).

(** The registry of [A] holding problem 1 alone. *)
Definition registry1 (l : list Solution.t) : Registry :=
  {| next_problem_id := 2; problems := {[1 := problem1 l]} |}.

(** The state in which [A] holds the bounty and its registry holds problem 1
    alone, with the solutions [l]. *)
Definition with_solutions (l : list Solution.t) : State :=
  {| registries := {[A := registry1 l]}; balances := {[A := bounty]} |}.

(** The only solution of problem 1 credits [solver] and has [votes] votes. *)
Definition credited_to (solver : address) (votes : Z) : State :=
  with_solutions [solution1 solver votes].

(** The solutions [n] calls of [add_solution] by [A] leave in problem 1. *)
Definition numbered (n : nat) : list Solution.t :=
  (λ i : nat,
     {| Solution.id := Z.of_nat i + 1; Solution.solver := A;
        Solution.cid := Qm222; Solution.votes := 0 |}) <$> seq 0 n.

(** Problem 1 has as many solutions as a [u64] counts. *)
Definition crowded : State := with_solutions (numbered (Z.to_nat u64_max)).
End Scenario.

(** ** Histories *)

(** What one call may make of a stored solution: nothing but one more vote. *)
Definition solution_extends (sol sol' : Solution.t) : Prop :=
  Solution.id sol' = Solution.id sol ∧
  Solution.solver sol' = Solution.solver sol ∧
  Solution.cid sol' = Solution.cid sol ∧
  Solution.votes sol ≤ Solution.votes sol' ≤ Solution.votes sol + 1.

(** What one call may make of a stored problem: the fields given at creation
    stay, solutions stay where they are and gain at most a vote, at most one
    solution is appended. *)
Definition problem_extends (p p' : Problem.t) : Prop :=
  Problem.id p' = Problem.id p ∧
  Problem.owner p' = Problem.owner p ∧
  Problem.cid p' = Problem.cid p ∧
  Problem.lat p' = Problem.lat p ∧
  Problem.lng p' = Problem.lng p ∧
  Problem.bounty_octas p' = Problem.bounty_octas p ∧
  (length (Problem.solutions p) ≤ length (Problem.solutions p')
     ≤ S (length (Problem.solutions p)))%nat ∧
  ∀ (i : nat) sol, Problem.solutions p !! i = Some sol →
    ∃ sol', Problem.solutions p' !! i = Some sol' ∧ solution_extends sol sol'.

(** The same over any number of calls. *)
Definition solution_grows (sol sol' : Solution.t) : Prop :=
  Solution.id sol' = Solution.id sol ∧
  Solution.solver sol' = Solution.solver sol ∧
  Solution.cid sol' = Solution.cid sol ∧
  Solution.votes sol ≤ Solution.votes sol'.

Definition problem_grows (p p' : Problem.t) : Prop :=
  Problem.id p' = Problem.id p ∧
  Problem.owner p' = Problem.owner p ∧
  Problem.cid p' = Problem.cid p ∧
  Problem.lat p' = Problem.lat p ∧
  Problem.lng p' = Problem.lng p ∧
  Problem.bounty_octas p' = Problem.bounty_octas p ∧
  (length (Problem.solutions p) ≤ length (Problem.solutions p'))%nat ∧
  ∀ (i : nat) sol, Problem.solutions p !! i = Some sol →
    ∃ sol', Problem.solutions p' !! i = Some sol' ∧ solution_grows sol sol'.

(** ** Ranges *)

(** Every number of a stored problem fits its [u64] field, and the length of
    the sequence fits the [u64] that [vector::length] returns. *)
Definition u64_problem (p : Problem.t) : Prop :=
  is_u64 (Problem.id p) ∧
  is_u64 (Problem.bounty_octas p) ∧
  Z.of_nat (length (Problem.solutions p)) ≤ u64_max ∧
  (∀ c, Problem.chosen p = Some c → is_u64 c) ∧
  ∀ (i : nat) sol, Problem.solutions p !! i = Some sol →
    is_u64 (Solution.id sol) ∧ is_u64 (Solution.votes sol).

Definition u64_registry (_ : address) (reg : Registry) : Prop :=
  is_u64 (next_problem_id reg) ∧
  ∀ k p, problems reg !! k = Some p → is_u64 k ∧ u64_problem p.

(** Every problem is open and none has a chosen solution. *)
Definition all_open (_ : address) (p : Problem.t) : Prop :=
  Problem.open p = true ∧ Problem.chosen p = None.

(** The same outcome in a ledger that differs by [f]. *)
Definition map_outcome (f : State → State) (o : outcome) : outcome :=
  match o with
  | Done s => Done (f s)
  | Aborted e s => Aborted e (f s)
  end.

(** [c] is no [release_reward]. *)
Definition moves_no_coins (c : call) : Prop :=
  match c with
  | ReleaseReward _ _ _ => False
  | _ => True
  end.

(** Two ledgers built by writes to registries at different addresses are
    compared address by address. *)
Ltac same_ledger :=
  unfold set_problem, set_balances, set_registry; simpl; try reflexivity;
  repeat match goal with
         | |- Done _ = Done _ => f_equal
         | |- Aborted _ _ = Aborted _ _ => f_equal
         | |- mkState _ _ = mkState _ _ => f_equal
         end;
  apply map_eq; intros ?;
  rewrite ?lookup_insert; repeat case_decide; congruence.

(** * The browser side

    The utilities of the web client that do not draw: the strings they build
    and the decisions they take.  A string is the sequence of its UTF-16 code
    units, which is what [slice], [trim] and [startsWith] count in. *)

Module Js.
Definition string := list N.

(** A literal, from its bytes (ASCII). *)
Definition lit (l : list byte) : string := Byte.to_N <$> l.

(** [ToBoolean] of a value that is a string or [undefined]. *)
Definition truthy (o : option string) : bool :=
  match o with
  | Some (_ :: _) => true
  | _ => false
  end.

(** [a || b] on such values. *)
Definition or (a b : option string) : option string :=
  if truthy a then a else b.

(** A relative index of [slice], clamped to the string. *)
Definition clamp (len k : Z) : Z :=
  if decide (k < 0) then Z.max (len + k) 0 else Z.min k len.

(** [s.slice(start, stop)]; [stop = None] stands for the omitted argument. *)
Definition slice (start : Z) (stop : option Z) (s : string) : string :=
  let len := Z.of_nat (length s) in
  let from := clamp len start in
  let to := match stop with Some e => clamp len e | None => len end in
  take (Z.to_nat (to - from)) (drop (Z.to_nat from) s).

(** The code units [trim] removes: white space and line terminators. *)
Definition is_space (c : N) : bool :=
  bool_decide
    (c ∈ [9; 10; 11; 12; 13; 32; 160; 5760; 8232; 8233; 8239; 8287; 12288;
          65279]%N ∨ (8192 ≤ c ≤ 8202)%N).

Fixpoint trim_start (s : string) : string :=
  match s with
  | c :: s' => if is_space c then trim_start s' else s
  | [] => []
  end.

(** [s.trim()] *)
Definition trim (s : string) : string :=
  reverse (trim_start (reverse (trim_start s))).

(** [s.startsWith(p)] *)
Fixpoint startsWith (p s : string) : bool :=
  match p, s with
  | [], _ => true
  | _ :: _, [] => false
  | a :: p', b :: s' => bool_decide (a = b) && startsWith p' s'
  end.

(** [l.join(sep)] on an array of strings and [undefined]. *)
Fixpoint join (sep : string) (l : list (option string)) : string :=
  match l with
  | [] => []
  | [x] => default [] x
  | x :: l' => default [] x ++ sep ++ join sep l'
  end.
End Js.

(** ** WalletConnect *)

Module Wallet.
(** [const truncate = (addr) => `${addr.slice(0, 6)}...${addr.slice(-4)}`] *)
Definition truncate (addr : Js.string) : Js.string :=
  Js.slice 0 (Some 6) addr ++ Js.lit ["."; "."; "."]%byte
    ++ Js.slice (-4) None addr.
End Wallet.

(** ** Geocoding *)

Module Geocoding.
(** [ReverseGeocodeResult.address] *)
Record address_fields := mkAddress {
  house_number : option Js.string;
  road : option Js.string;
  neighbourhood : option Js.string;
  suburb : option Js.string;
  city : option Js.string;
  state : option Js.string;
  postcode : option Js.string;
  country : option Js.string;
}.

(** [ReverseGeocodeResult], without the fields [formatAddress] does not
    read ([place_id], [licence], [osm_type], [osm_id], [lat], [lon]). *)
Record ReverseGeocodeResult := mkResult {
  display_name : Js.string;
  address : address_fields;
}.

(** [export const formatAddress] *)
Definition formatAddress (result : ReverseGeocodeResult) : Js.string :=
  let address := address result in
  let parts :=
    filter (λ x, Js.truthy x = true)
      [house_number address; road address;
       Js.or (neighbourhood address) (suburb address);
       city address; state address] in
  let joined := Js.join (Js.lit [","; " "]%byte) parts in
  if Js.truthy (Some joined) then joined else display_name result.
End Geocoding.

(** ** IPFS upload *)

Module Ipfs.
Inductive provider := NFT_Storage | Pinata | Web3_Storage.

(** What a pinning service does with a request: the request fails (the
    [fetch], the [import], the [json()] or the read of the field throws), the
    response is not [ok], or the call yields the value the function returns
    (the cid of [storeBlob], the field [IpfsHash] or [cid] of the body). *)
Inductive reply (V : Type) :=
  | Throws
  | Not_ok
  | Yields (v : V).
Arguments Throws {V}.
Arguments Not_ok {V}.
Arguments Yields {V} v.

(** The three services, as they would answer this upload; [storeBlob] of
    NFT.Storage yields a cid or throws ([None]). *)
Record services (V : Type) := mkServices {
  nft_storage : option V;
  pinata : reply V;
  web3_storage : reply V;
}.
Arguments nft_storage {V}.
Arguments pinata {V}.
Arguments web3_storage {V}.

(** The messages of the errors thrown. *)
Inductive error :=
  | Token_required      (* 'IPFS API token is required' *)
  | File_required       (* 'File is required for IPFS upload' *)
  | All_failed          (* 'Failed to upload to any IPFS service. ...' *)
  | Data_required       (* 'Data is required for JSON upload' *)
  | Not_serialisable.   (* what JSON.stringify throws *)

(** The value the promise resolves to or the error it rejects with, and the
    services contacted, first to last. *)
Record outcome (V : Type) := mkOutcome {
  result : V + error;
  contacted : list provider;
}.
Arguments mkOutcome {V}.
Arguments result {V}.
Arguments contacted {V}.

(** [export const uploadFileToIPFS]; [file = false] is a missing file. *)
Definition uploadFileToIPFS {V} (net : services V) (apiToken : Js.string)
    (file : bool) : outcome V :=
  if negb (Js.truthy (Some apiToken))
     || bool_decide (Js.trim apiToken = []) then
    mkOutcome (inr Token_required) []
  else if negb file then mkOutcome (inr File_required) []
  else
    let after_nft (seen : list provider) :=
      match pinata net with
      | Yields v => mkOutcome (inl v) (seen ++ [Pinata])
      | _ =>
          match web3_storage net with
          | Yields v => mkOutcome (inl v) (seen ++ [Pinata; Web3_Storage])
          | _ => mkOutcome (inr All_failed) (seen ++ [Pinata; Web3_Storage])
          end
      end in
    if Js.startsWith (Js.lit ["e"; "y"; "J"]%byte) apiToken then
      match nft_storage net with
      | Some cid => mkOutcome (inl cid) [NFT_Storage]
      | None => after_nft [NFT_Storage]
      end
    else after_nft [].

(** The argument [data] of [uploadJSONToIPFS], as far as the function tells
    values apart: falsy, rejected by [JSON.stringify], or serialised. *)
Inductive data := Falsy | Unserialisable | Plain.

(** [export const uploadJSONToIPFS] *)
Definition uploadJSONToIPFS {V} (net : services V) (apiToken : Js.string)
    (d : data) : outcome V :=
  match d with
  | Falsy => mkOutcome (inr Data_required) []
  | Unserialisable => mkOutcome (inr Not_serialisable) []
  | Plain => uploadFileToIPFS net apiToken true
  end.

(** The services a token is tried on, in order. *)
Definition order (apiToken : Js.string) : list provider :=
  (if Js.startsWith (Js.lit ["e"; "y"; "J"]%byte) apiToken
   then [NFT_Storage] else []) ++ [Pinata; Web3_Storage].

Definition answer {V} (net : services V) (p : provider) : reply V :=
  match p with
  | NFT_Storage => from_option Yields Throws (nft_storage net)
  | Pinata => pinata net
  | Web3_Storage => web3_storage net
  end.

(** The first service of [l] that yields a value, with the services before
    it. *)
Fixpoint first_yield {V} (net : services V) (l : list provider)
    : option (V * list provider) :=
  match l with
  | [] => None
  | p :: l' =>
      match answer net p with
      | Yields v => Some (v, [p])
      | _ =>
          match first_yield net l' with
          | Some (v, seen) => Some (v, p :: seen)
          | None => None
          end
      end
  end.
End Ipfs.

(** ** The local store *)

Module Store.
(** What [localStorage] holds under a key, as [JSON.parse] reads it: the empty
    string, a string that does not parse, or the text of an array of records.
    [JSON.stringify] of an array writes the text that parses to it.  Strings
    that parse to something else than an array of records are left out, and
    [setItem] is taken to succeed. *)
Inductive text (Item : Type) :=
  | Empty
  | Unparsable
  | Items (l : list Item).
Arguments Empty {Item}.
Arguments Unparsable {Item}.
Arguments Items {Item} l.

(** [const KEY = "defix.problems"] *)
Definition KEY : Js.string :=
  Js.lit ["d"; "e"; "f"; "i"; "x"; "."; "p"; "r"; "o"; "b"; "l"; "e"; "m";
          "s"]%byte.

(** [`defix.solutions.${problemId}`] *)
Definition solutions_key (problemId : Js.string) : Js.string :=
  Js.lit ["d"; "e"; "f"; "i"; "x"; "."; "s"; "o"; "l"; "u"; "t"; "i"; "o";
          "n"; "s"; "."]%byte ++ problemId.

(** [JSON.parse(localStorage.getItem(key) || "[]")]: the array, or [None]
    when [JSON.parse] throws. *)
Definition parse_or_empty {Item} (key : Js.string)
    (st : gmap Js.string (text Item)) : option (list Item) :=
  match st !! key with
  | None | Some Empty => Some []
  | Some Unparsable => None
  | Some (Items l) => Some l
  end.

(** [export const getProblems]: the [catch] returns the empty array. *)
Definition getProblems {Item} (st : gmap Js.string (text Item)) : list Item :=
  default [] (parse_or_empty KEY st).

(** [export const saveProblems] *)
Definition saveProblems {Item} (items : list Item)
    (st : gmap Js.string (text Item)) : gmap Js.string (text Item) :=
  <[KEY := Items items]> st.

(** [export const addProblem]: [unshift], then save. *)
Definition addProblem {Item} (p : Item) (st : gmap Js.string (text Item))
    : gmap Js.string (text Item) :=
  let items := getProblems st in
  saveProblems (p :: items) st.

(** [export const getProblemById]; [id] reads the field [id] of a record. *)
Definition getProblemById {Item} (id : Item → Js.string) (x : Js.string)
    (st : gmap Js.string (text Item)) : option Item :=
  List.find (λ p, bool_decide (id p = x)) (getProblems st).

(** [export const addLocalSolution]: [None] when [JSON.parse] throws. *)
Definition addLocalSolution {Item} (problemId : Js.string) (solution : Item)
    (st : gmap Js.string (text Item))
    : option (gmap Js.string (text Item)) :=
  let key := solutions_key problemId in
  match parse_or_empty key st with
  | None => None
  | Some items => Some (<[key := Items (items ++ [solution])]> st)
  end.

(** [export const getLocalSolutions]: [None] when [JSON.parse] throws. *)
Definition getLocalSolutions {Item} (problemId : Js.string)
    (st : gmap Js.string (text Item)) : option (list Item) :=
  parse_or_empty (solutions_key problemId) st.
End Store.

(** * Properties *)

(** ** Checked addition *)

Lemma checked_add_Some a b n : checked_add a b = Some n ↔ n = a + b ∧ a + b ≤ u64_max.
Proof.
  unfold checked_add. case_decide; split.
  - by intros [= <-].
  - by intros [-> _].
  - done.
  - intros [_ ?]. lia.
Qed.

Lemma checked_add_None a b : checked_add a b = None ↔ u64_max < a + b.
Proof.
  unfold checked_add. case_decide; split; intros; try done; lia.
Qed.

Lemma checked_add_fits a b : a + b ≤ u64_max → checked_add a b = Some (a + b).
Proof. intros H. by apply checked_add_Some. Qed.

(** ** The scan *)

Lemma scan_Some solution_id i0 l i s_ref :
  scan solution_id i0 l = Some (i, s_ref) →
  ∃ k : nat, i = (i0 + k)%nat ∧ l !! k = Some s_ref ∧
    Solution.id s_ref = solution_id ∧
    ∀ (j : nat) sol, (j < k)%nat → l !! j = Some sol →
      Solution.id sol ≠ solution_id.
Proof.
  revert i0. induction l as [|x l IH]; intros i0 H; simpl in H; [done|].
  case_bool_decide as Hx.
  - injection H as <- <-. exists 0%nat. repeat split; auto with lia.
  - apply IH in H as (k & -> & Hk & Hid & Hfirst).
    exists (S k). repeat split; auto with lia.
    intros [|j] sol Hj Hl; simpl in Hl.
    + by injection Hl as <-.
    + apply (Hfirst j); [lia|done].
Qed.

Lemma scan_None solution_id i0 l :
  scan solution_id i0 l = None ↔
  ∀ sol, sol ∈ l → Solution.id sol ≠ solution_id.
Proof.
  revert i0. induction l as [|x l IH]; intros i0; simpl.
  - split; [|done]. intros _ sol Hin. by apply elem_of_nil in Hin.
  - case_bool_decide as Hx.
    + split; [done|]. intros H. destruct (H x); [left|done].
    + rewrite IH. split.
      * intros H sol [->|Hin]%elem_of_cons; auto.
      * intros H sol Hin. apply H. by right.
Qed.

Lemma scan_Some_0 solution_id l i s_ref :
  scan solution_id 0 l = Some (i, s_ref) →
  l !! i = Some s_ref ∧ Solution.id s_ref = solution_id ∧
  ∀ (j : nat) sol, (j < i)%nat → l !! j = Some sol →
    Solution.id sol ≠ solution_id.
Proof. intros (k & -> & H)%scan_Some. exact H. Qed.

(** ** Successful calls *)

Lemma set_registry_twice a r1 r2 s :
  set_registry a r2 (set_registry a r1 s) = set_registry a r2 s.
Proof. unfold set_registry; simpl. by rewrite insert_insert_eq. Qed.

Lemma create_problem_Done account cid lat lng bounty_octas s s' :
  create_problem account cid lat lng bounty_octas s = Done s' →
  let reg := ensured (registries s !! account) in
  problems reg !! next_problem_id reg = None ∧
  next_problem_id reg + 1 ≤ u64_max ∧
  s' = set_registry account
         {| next_problem_id := next_problem_id reg + 1;
            problems :=
              <[next_problem_id reg :=
                  new_problem (next_problem_id reg) account cid lat lng
                    bounty_octas]> (problems reg) |} s.
Proof.
  unfold create_problem, ensure_registry.
  destruct (registries s !! account) as [reg|] eqn:Hreg; simpl.
  - rewrite Hreg.
    destruct (checked_add _ 1) as [n|] eqn:Hn; [|done].
    apply checked_add_Some in Hn as [-> Hle]. simpl.
    destruct (problems reg !! _) eqn:Hk; [done|].
    intros [= <-]. unfold set_problem. simpl. by rewrite set_registry_twice.
  - rewrite lookup_insert_eq.
    destruct (checked_add _ 1) as [n|] eqn:Hn; [|done].
    apply checked_add_Some in Hn as [-> Hle]. simpl.
    rewrite lookup_empty. intros [= <-]. unfold set_problem. simpl.
    by rewrite !set_registry_twice.
Qed.

Lemma add_solution_Done account problem_id solver_addr cid s s' :
  add_solution account problem_id solver_addr cid s = Done s' →
  ∃ reg p,
    registries s !! account = Some reg ∧
    problems reg !! problem_id = Some p ∧
    Problem.open p = true ∧ solver_addr = account ∧
    Z.of_nat (length (Problem.solutions p)) + 1 ≤ u64_max ∧
    s' = set_problem account reg problem_id
           (Problem.set_solutions
              (Problem.solutions p ++
                 [{| Solution.id := Z.of_nat (length (Problem.solutions p)) + 1;
                     Solution.solver := solver_addr; Solution.cid := cid;
                     Solution.votes := 0 |}]) p) s.
Proof.
  unfold add_solution.
  destruct (registries s !! account) as [reg|] eqn:Hreg; [|done].
  destruct (problems reg !! problem_id) as [p|] eqn:Hp; [|done].
  destruct (Problem.open p) eqn:Hopen; [|done]. simpl.
  case_bool_decide as Hsolver; [|done]. simpl.
  destruct (checked_add _ 1) as [n|] eqn:Hn; [|done].
  apply checked_add_Some in Hn as [-> Hle].
  intros [= <-]. exists reg, p. by repeat split.
Qed.

Lemma add_solution_Aborted account problem_id solver_addr cid s e s' :
  add_solution account problem_id solver_addr cid s = Aborted e s' → s' = s.
Proof.
  unfold add_solution. intros H.
  repeat (case_match; try done); by injection H.
Qed.

Lemma vote_solution_Done _voter problem_id solution_id s s' :
  vote_solution _voter problem_id solution_id s = Done s' →
  ∃ reg p i s_ref,
    registries s !! _voter = Some reg ∧
    problems reg !! problem_id = Some p ∧
    Problem.open p = true ∧
    scan solution_id 0 (Problem.solutions p) = Some (i, s_ref) ∧
    Solution.votes s_ref + 1 ≤ u64_max ∧
    s' = set_problem _voter reg problem_id
           (Problem.set_solutions
              (<[i := Solution.set_votes (Solution.votes s_ref + 1) s_ref]>
                 (Problem.solutions p)) p) s.
Proof.
  unfold vote_solution.
  destruct (registries s !! _voter) as [reg|] eqn:Hreg; [|done].
  destruct (problems reg !! problem_id) as [p|] eqn:Hp; [|done].
  destruct (Problem.open p) eqn:Hopen; [|done]. simpl.
  destruct (scan _ _ _) as [[i s_ref]|] eqn:Hscan; [|done].
  destruct (checked_add _ 1) as [n|] eqn:Hn; [|done].
  apply checked_add_Some in Hn as [-> Hle].
  intros [= <-]. exists reg, p, i, s_ref. by repeat split.
Qed.

Lemma vote_solution_Aborted _voter problem_id solution_id s e s' :
  vote_solution _voter problem_id solution_id s = Aborted e s' → s' = s.
Proof.
  unfold vote_solution. intros H.
  repeat (case_match; try done); by injection H.
Qed.

Lemma release_reward_Done owner problem_id solution_id s s' :
  release_reward owner problem_id solution_id s = Done s' →
  ∃ reg p i s_ref b,
    registries s !! owner = Some reg ∧
    problems reg !! problem_id = Some p ∧
    Problem.owner p = owner ∧ Problem.open p = true ∧
    scan solution_id 0 (Problem.solutions p) = Some (i, s_ref) ∧
    Solution.solver s_ref ≠ owner ∧
    coin_transfer owner (Solution.solver s_ref) (Problem.bounty_octas p)
      (balances s) = Some b ∧
    s' = set_problem owner reg problem_id (Problem.close solution_id p)
           (set_balances b s).
Proof.
  unfold release_reward.
  destruct (registries s !! owner) as [reg|] eqn:Hreg; [|done].
  destruct (problems reg !! problem_id) as [p|] eqn:Hp; [|done].
  case_bool_decide as Howner; [|done]. simpl.
  destruct (Problem.open p) eqn:Hopen; [|done]. simpl.
  destruct (scan _ _ _) as [[i s_ref]|] eqn:Hscan.
  - case_bool_decide as Hsolver; [|done]. simpl.
    destruct (coin_transfer _ _ _ _) as [b|] eqn:Hb; [|done].
    intros [= <-]. exists reg, p, i, s_ref, b. by repeat split.
  - case_bool_decide as Hsolver; done.
Qed.

Lemma release_reward_Aborted owner problem_id solution_id s e s' :
  release_reward owner problem_id solution_id s = Aborted e s' → s' = s.
Proof.
  unfold release_reward. intros H.
  repeat (case_match; try done); by injection H.
Qed.

(** A successful call rewrites the registry of its signer, by one of the
    steps above, and nothing else among the registries. *)
Lemma exec_Done c s s' :
  exec c s = Done s' →
  ∃ reg', registry_step (signer c) (registries s !! signer c) reg' ∧
          registries s' = <[signer c := reg']> (registries s).
Proof.
  destruct c; simpl; intros H.
  - apply create_problem_Done in H as (Hfresh & Hle & ->).
    eexists. split; [by apply step_create|done].
  - apply add_solution_Done in H as (reg & p & Hreg & Hp & Hopen & -> & Hle & ->).
    eexists. rewrite Hreg. split; [|done].
    eapply step_problem; [done|]. by apply step_add.
  - apply vote_solution_Done in H
      as (reg & p & i & s_ref & Hreg & Hp & Hopen & Hscan & Hle & ->).
    eexists. rewrite Hreg. split; [|done].
    eapply step_problem; [done|]. by eapply step_vote.
  - apply release_reward_Done in H
      as (reg & p & i & s_ref & b & Hreg & Hp & Howner & Hopen & _ & _ & _ & ->).
    eexists. rewrite Hreg. split; [|done].
    eapply step_problem; [done|]. by apply step_release.
Qed.

(** A call that is not a successful [release_reward] moves no coins. *)
Lemma exec_Done_balances c s s' :
  exec c s = Done s' →
  (∀ owner problem_id solution_id,
     c ≠ ReleaseReward owner problem_id solution_id) →
  balances s' = balances s.
Proof.
  destruct c; simpl; intros H Hc.
  - by apply create_problem_Done in H as (_ & _ & ->).
  - by apply add_solution_Done in H as (? & ? & _ & _ & _ & _ & _ & ->).
  - by apply vote_solution_Done in H
      as (? & ? & ? & ? & _ & _ & _ & _ & _ & ->).
  - by destruct (Hc owner problem_id solution_id).
Qed.

(** ** Invariants are carried by the steps *)

Lemma every_problem_step_closed P :
  problem_step_closed P → step_closed (every_problem P).
Proof.
  intros [Hnew Hstep] a o reg' Hreg Ho k q. destruct Hreg; simpl.
  - destruct (decide (k = next_problem_id (ensured o))) as [->|Hk].
    + rewrite lookup_insert_eq. intros [= <-]. apply Hnew.
    + rewrite lookup_insert_ne by done. apply Ho.
  - destruct (decide (k = k0)) as [->|Hk].
    + rewrite lookup_insert_eq. intros [= <-]. eapply Hstep; [done|].
      by eapply Ho.
    + rewrite lookup_insert_ne by done. apply Ho.
Qed.

Lemma every_problem_ensured_None P a : every_problem P a (ensured None).
Proof. intros k p. unfold ensured; simpl. by rewrite lookup_empty. Qed.

(** A call, committed, keeps what holds of every registry. *)
Lemma commit_every_registry P c s :
  step_closed P →
  (∀ a, P a (ensured None)) →
  every_registry P s →
  every_registry P (commit s (exec c s)).
Proof.
  intros Hstep Hnone Hs. destruct (exec c s) as [s'|e s'] eqn:Hexec; [|done].
  simpl. apply exec_Done in Hexec as (reg' & Hreg' & Hs').
  intros a reg. rewrite Hs'.
  destruct (decide (a = signer c)) as [->|Ha].
  - rewrite lookup_insert_eq. intros [= <-]. eapply Hstep; [done|].
    destruct (registries s !! signer c) as [reg|] eqn:Hreg; [by apply Hs|].
    apply Hnone.
  - rewrite lookup_insert_ne by done. apply Hs.
Qed.

Lemma reachable_every_registry P s :
  step_closed P →
  (∀ a, P a (ensured None)) →
  reachable s → every_registry P s.
Proof.
  intros Hstep Hnone. induction 1 as [b|s b _ IH|s c _ IH _].
  - intros a reg. simpl. by rewrite lookup_empty.
  - exact IH.
  - by apply commit_every_registry.
Qed.

(** *** The counter and the keys *)

Lemma counter_above_keys_step_closed : step_closed counter_above_keys.
Proof.
  intros a o reg' Hreg. unfold counter_above_keys.
  destruct Hreg as [o cid lat lng b Hfresh Hle|reg k0 p p' Hp Hstep].
  - remember (ensured o) as r eqn:Hr. clear Hr. intros Ho k; simpl.
    destruct (decide (k = next_problem_id r)) as [->|Hk]; [lia|].
    rewrite lookup_insert_ne by done. intros Hin%Ho. lia.
  - unfold ensured; simpl. intros Ho k.
    destruct (decide (k = k0)) as [->|Hk].
    + intros _. apply Ho. by eexists.
    + rewrite lookup_insert_ne by done. apply Ho.
Qed.

Lemma counter_above_keys_ensured_None a : counter_above_keys a (ensured None).
Proof. intros k. unfold ensured; simpl. rewrite lookup_empty. by intros [? ?]. Qed.

Lemma problem_step_id a p p' : problem_step a p p' → Problem.id p' = Problem.id p.
Proof. by destruct 1. Qed.

Lemma keys_contiguous_step_closed : step_closed keys_contiguous.
Proof.
  intros a o reg' Hreg. unfold keys_contiguous.
  destruct Hreg as [o cid lat lng b Hfresh Hle|reg k0 p p' Hp Hstep].
  - remember (ensured o) as r eqn:Hr. clear Hr.
    intros (Hnext & Hkeys & Hid); simpl. split; [lia|]. split.
    + intros k. destruct (decide (k = next_problem_id r)) as [->|Hk].
      * rewrite lookup_insert_eq. split; [lia|by eexists].
      * rewrite lookup_insert_ne by done. rewrite Hkeys. lia.
    + intros k p. destruct (decide (k = next_problem_id r)) as [->|Hk].
      * rewrite lookup_insert_eq. by intros [= <-].
      * rewrite lookup_insert_ne by done. apply Hid.
  - unfold ensured; simpl. intros (Hnext & Hkeys & Hid).
    split; [done|]. split.
    + intros k. destruct (decide (k = k0)) as [->|Hk].
      * rewrite lookup_insert_eq, <- Hkeys. split; by eexists.
      * by rewrite lookup_insert_ne.
    + intros k q. destruct (decide (k = k0)) as [->|Hk].
      * rewrite lookup_insert_eq. intros [= <-].
        erewrite problem_step_id by done. by apply Hid.
      * rewrite lookup_insert_ne by done. apply Hid.
Qed.

Lemma keys_contiguous_ensured_None a : keys_contiguous a (ensured None).
Proof.
  unfold keys_contiguous, ensured; simpl. split; [unfold u64_max; lia|]. split.
  - intros k. rewrite lookup_empty. split; [by intros [? ?]|simpl; lia].
  - intros k p. by rewrite lookup_empty.
Qed.

(** *** The problems *)

Lemma chosen_iff_closed_steps : problem_step_closed chosen_iff_closed.
Proof.
  split.
  - intros. unfold chosen_iff_closed; simpl. split; [by intros [? ?]|done].
  - intros a p p' Hstep Hp. destruct Hstep; unfold chosen_iff_closed in *;
      simpl; [done|done|]. split; [done|by eexists].
Qed.

Lemma owned_by_registry_steps : problem_step_closed owned_by_registry.
Proof.
  split; [done|]. intros a p p' Hstep Hp. by destruct Hstep.
Qed.

Lemma solved_by_registry_steps : problem_step_closed solved_by_registry.
Proof.
  split; [by intros ? ? ? ? ? ? [|?] ?|].
  intros a p p' Hstep Hp. destruct Hstep as [p cid| p sid i s_ref _ Hscan _|];
    unfold solved_by_registry in *; simpl; [| |done].
  - intros i sol [Hl|[_ Hl]]%lookup_app_Some; [by eapply Hp|].
    apply list_lookup_singleton_Some in Hl as [_ <-]. done.
  - apply scan_Some_0 in Hscan as (Hi & _ & _).
    intros j sol. destruct (decide (j = i)) as [->|Hj].
    + rewrite list_lookup_insert_eq by (by eapply lookup_lt_Some).
      intros [= <-]. simpl. by eapply Hp.
    + rewrite list_lookup_insert_ne by done. apply Hp.
Qed.

Lemma ids_by_position_steps : problem_step_closed ids_by_position.
Proof.
  split; [by intros ? ? ? ? ? ? [|?] ?|].
  intros a p p' Hstep Hp. destruct Hstep as [p cid| p sid i s_ref _ Hscan _|];
    unfold ids_by_position in *; simpl; [| |done].
  - intros i sol [Hl|[Hi Hl]]%lookup_app_Some; [by eapply Hp|].
    apply list_lookup_singleton_Some in Hl as [Hi' <-]. simpl. lia.
  - apply scan_Some_0 in Hscan as (Hi & _ & _).
    intros j sol. destruct (decide (j = i)) as [->|Hj].
    + rewrite list_lookup_insert_eq by (by eapply lookup_lt_Some).
      intros [= <-]. simpl. by eapply Hp.
    + rewrite list_lookup_insert_ne by done. apply Hp.
Qed.

(** ** The scenario *)

Lemma reachable_created : reachable Scenario.created.
Proof.
  apply (reachable_call Scenario.genesis
           (CreateProblem Scenario.A Scenario.Qm111 Scenario.lat Scenario.lng
              Scenario.bounty)).
  - apply reachable_genesis.
  - by vm_compute.
Qed.

Lemma reachable_solved : reachable Scenario.solved.
Proof.
  apply (reachable_call Scenario.created
           (AddSolution Scenario.A 1 Scenario.A Scenario.Qm222)).
  - apply reachable_created.
  - by vm_compute.
Qed.

Lemma reachable_voted : reachable Scenario.voted.
Proof.
  apply (reachable_call Scenario.solved (VoteSolution Scenario.A 1 1)).
  - apply reachable_solved.
  - by vm_compute.
Qed.

(** The vote counter of solution 1 can be driven to any value of a [u64]. *)
Lemma vote_solution_credited_to votes :
  votes < u64_max →
  vote_solution Scenario.A 1 1 (Scenario.credited_to Scenario.A votes)
    = Done (Scenario.credited_to Scenario.A (votes + 1)).
Proof.
  intros Hlt. unfold vote_solution, Scenario.credited_to, Scenario.with_solutions.
  cbn [registries]. rewrite lookup_singleton_eq.
  unfold Scenario.registry1 at 1. cbn [problems]. rewrite lookup_singleton_eq.
  cbn [Scenario.problem1 Scenario.solution1 Problem.set_solutions
       Problem.open Problem.solutions new_problem negb scan Solution.id].
  rewrite bool_decide_eq_true_2 by done.
  change (Solution.votes (Scenario.solution1 Scenario.A votes)) with votes.
  rewrite checked_add_fits by lia.
  unfold set_problem, set_registry. cbn [registries balances next_problem_id
                                         problems Scenario.registry1].
  by rewrite !insert_singleton_eq.
Qed.

Lemma reachable_credited_to (n : nat) :
  Z.of_nat n ≤ u64_max →
  reachable (Scenario.credited_to Scenario.A (Z.of_nat n)).
Proof.
  induction n as [|n IH]; intros Hn.
  - exact reachable_solved.
  - rewrite Nat2Z.inj_succ, <- Z.add_1_r.
    pose proof (reachable_call _ (VoteSolution Scenario.A 1 1) (IH ltac:(lia)))
      as Hcall.
    simpl in Hcall. rewrite vote_solution_credited_to in Hcall by lia.
    apply Hcall. by vm_compute.
Qed.

(** The sequence of solutions of problem 1 can be driven to any length. *)
Lemma length_numbered n : length (Scenario.numbered n) = n.
Proof. unfold Scenario.numbered. by rewrite length_fmap, length_seq. Qed.

Lemma numbered_S n :
  Scenario.numbered (S n)
    = Scenario.numbered n ++
      [{| Solution.id := Z.of_nat n + 1; Solution.solver := Scenario.A;
          Solution.cid := Scenario.Qm222; Solution.votes := 0 |}].
Proof. unfold Scenario.numbered. by rewrite seq_S, fmap_app. Qed.

Lemma add_solution_numbered (n : nat) :
  Z.of_nat n < u64_max →
  add_solution Scenario.A 1 Scenario.A Scenario.Qm222
    (Scenario.with_solutions (Scenario.numbered n))
    = Done (Scenario.with_solutions (Scenario.numbered (S n))).
Proof.
  intros Hlt. unfold add_solution, Scenario.with_solutions.
  cbn [registries]. rewrite lookup_singleton_eq.
  unfold Scenario.registry1 at 1. cbn [problems]. rewrite lookup_singleton_eq.
  cbn [Scenario.problem1 Problem.set_solutions Problem.open Problem.solutions
       new_problem negb].
  rewrite bool_decide_eq_true_2 by done. cbn [negb].
  rewrite length_numbered, checked_add_fits by lia.
  unfold set_problem, set_registry. cbn [registries balances next_problem_id
                                         problems Scenario.registry1].
  rewrite !insert_singleton_eq. by rewrite numbered_S.
Qed.

Lemma reachable_numbered (n : nat) :
  Z.of_nat n ≤ u64_max →
  reachable (Scenario.with_solutions (Scenario.numbered n)).
Proof.
  induction n as [|n IH]; intros Hn.
  - exact reachable_created.
  - pose proof (reachable_call _
                  (AddSolution Scenario.A 1 Scenario.A Scenario.Qm222)
                  (IH ltac:(lia))) as Hcall.
    simpl in Hcall. rewrite add_solution_numbered in Hcall by lia.
    apply Hcall. by vm_compute.
Qed.

(** ** release_reward *)

(** C1.  [release_reward] signed by the owner of an open problem of its
    registry aborts with code 7, "solution not found", not only when no
    solution carries [solution_id]: it does so exactly when the scan finds
    none or the first one it finds credits the signer, since the address of
    the signer doubles as the mark for "not found".  A solution that is
    present is then rejected, whatever the balance. *)
Theorem C1_release_reward_not_found_iff owner problem_id solution_id s reg p :
  registries s !! owner = Some reg →
  problems reg !! problem_id = Some p →
  Problem.owner p = owner →
  Problem.open p = true →
  release_reward owner problem_id solution_id s = Aborted (ABORT 7) s ↔
  match scan solution_id 0 (Problem.solutions p) with
  | Some (_, s_ref) => Solution.solver s_ref = owner
  | None => True
  end.
Proof.
  intros Hreg Hp Howner Hopen. unfold release_reward.
  rewrite Hreg, Hp, Hopen. rewrite (bool_decide_eq_true_2 _ Howner). simpl.
  destruct (scan _ _ _) as [[i s_ref]|].
  - case_bool_decide as Hsolver; simpl.
    + split; [destruct (coin_transfer _ _ _ _); discriminate|].
      intros ?. contradiction.
    + split; [intros _|done].
      destruct (decide (Solution.solver s_ref = owner)); [done|contradiction].
  - rewrite bool_decide_eq_false_2 by (by intros []). done.
Qed.

(** The release the scenario of section 8 ends with, in the state reached by
    [create_problem] and [add_solution] signed by [A]: solution 1 is there,
    the balance of [A] covers the bounty, and the call aborts with code 7. *)
Lemma C1_release_reward_not_found_iff_witness :
  reachable Scenario.solved ∧
  Problem.solutions (Scenario.problem1 [Scenario.solution1 Scenario.A 0])
    !! 0%nat = Some (Scenario.solution1 Scenario.A 0) ∧
  Solution.id (Scenario.solution1 Scenario.A 0) = 1 ∧
  Problem.bounty_octas (Scenario.problem1 [Scenario.solution1 Scenario.A 0])
    ≤ balance (balances Scenario.solved) Scenario.A ∧
  release_reward Scenario.A 1 1 Scenario.solved
    = Aborted (ABORT 7) Scenario.solved.
Proof.
  split; [apply reachable_solved|]. split; [reflexivity|].
  split; [reflexivity|]. split; [by vm_compute|].
  apply (C1_release_reward_not_found_iff Scenario.A 1 1 Scenario.solved
           (Scenario.registry1 [Scenario.solution1 Scenario.A 0])
           (Scenario.problem1 [Scenario.solution1 Scenario.A 0]));
    reflexivity.
Defined.

(** C2.  The sequence of section 8 on the code: after [A] has created
    problem 1, [add_solution] signed by [B] and [vote_solution] signed by [C]
    look for a registry under the signer's own address, find none and abort;
    the problem of [A] keeps an empty sequence of solutions.  [C] is not
    better off once [A] itself has added solution 1. *)
Theorem C2_section8_sequence_aborts_for_other_signers :
  registries Scenario.created !! Scenario.A
    = Some {| next_problem_id := 2;
              problems :=
                {[1 := new_problem 1 Scenario.A Scenario.Qm111 Scenario.lat
                         Scenario.lng Scenario.bounty]} |} ∧
  add_solution Scenario.B 1 Scenario.B Scenario.Qm222 Scenario.created
    = Aborted MISSING_DATA Scenario.created ∧
  vote_solution Scenario.C 1 1 Scenario.created
    = Aborted MISSING_DATA Scenario.created ∧
  vote_solution Scenario.C 1 1 Scenario.solved
    = Aborted MISSING_DATA Scenario.solved.
Proof. repeat split; vm_compute; reflexivity. Qed.

(** ** Coins *)

Lemma balance_insert b a v a' :
  balance (<[a := v]> b) a' = if decide (a = a') then v else balance b a'.
Proof.
  unfold balance. case_decide as Ha.
  - subst. by rewrite lookup_insert_eq.
  - by rewrite lookup_insert_ne.
Qed.

Lemma coin_transfer_Some from to amount b b' :
  coin_transfer from to amount b = Some b' →
  from ≠ to →
  amount ≤ balance b from ∧
  balance b' from = balance b from - amount ∧
  balance b' to = balance b to + amount ∧
  ∀ a, a ≠ from → a ≠ to → balance b' a = balance b a.
Proof.
  unfold coin_transfer. case_decide as Hlt; [done|]. intros [= <-] Hne.
  split; [lia|]. rewrite !balance_insert.
  repeat case_decide; try done. repeat split.
  intros a Ha Ha'. rewrite !balance_insert. by repeat case_decide.
Qed.

Lemma coin_transfer_None from to amount b :
  coin_transfer from to amount b = None ↔ balance b from < amount.
Proof. unfold coin_transfer. by case_decide. Qed.

(** C3.  [release_reward] is all or nothing.  When it is done, the signer
    owns the problem, the problem was open, the first solution carrying
    [solution_id] credits a solver other than the signer, exactly
    [bounty_octas] has left the signer's balance and reached the solver's,
    no other balance has moved, and the only write to the registries closes
    the problem with [chosen = Some solution_id].  When it aborts, whatever
    the reason, the state at the abort is the state before the call.  With
    every check passed, it is the balance that decides: a balance below the
    bounty aborts the call, any other balance lets it through. *)
Theorem C3_release_reward_atomic owner problem_id solution_id s :
  (∀ s', release_reward owner problem_id solution_id s = Done s' →
     ∃ reg p i s_ref,
       registries s !! owner = Some reg ∧
       problems reg !! problem_id = Some p ∧
       Problem.owner p = owner ∧ Problem.open p = true ∧
       scan solution_id 0 (Problem.solutions p) = Some (i, s_ref) ∧
       Solution.solver s_ref ≠ owner ∧
       Problem.bounty_octas p ≤ balance (balances s) owner ∧
       balance (balances s') owner
         = balance (balances s) owner - Problem.bounty_octas p ∧
       balance (balances s') (Solution.solver s_ref)
         = balance (balances s) (Solution.solver s_ref)
           + Problem.bounty_octas p ∧
       (∀ a, a ≠ owner → a ≠ Solution.solver s_ref →
          balance (balances s') a = balance (balances s) a) ∧
       registries s'
         = <[owner := {| next_problem_id := next_problem_id reg;
                         problems :=
                           <[problem_id := Problem.close solution_id p]>
                             (problems reg) |}]> (registries s) ∧
       Problem.open (Problem.close solution_id p) = false ∧
       Problem.chosen (Problem.close solution_id p) = Some solution_id) ∧
  (∀ e s', release_reward owner problem_id solution_id s = Aborted e s' →
     s' = s ∧ commit s (Aborted e s') = s) ∧
  (∀ reg p i s_ref,
     registries s !! owner = Some reg →
     problems reg !! problem_id = Some p →
     Problem.owner p = owner → Problem.open p = true →
     scan solution_id 0 (Problem.solutions p) = Some (i, s_ref) →
     Solution.solver s_ref ≠ owner →
     if decide (balance (balances s) owner < Problem.bounty_octas p)
     then release_reward owner problem_id solution_id s
            = Aborted ECOIN_INSUFFICIENT s
     else ∃ s', release_reward owner problem_id solution_id s = Done s').
Proof.
  split; [|split].
  - intros s' (reg & p & i & s_ref & b & Hreg & Hp & Howner & Hopen & Hscan
               & Hsolver & Hb & ->)%release_reward_Done.
    apply coin_transfer_Some in Hb as (Hle & Hfrom & Hto & Hother); [|done].
    exists reg, p, i, s_ref. simpl. by repeat split.
  - intros e s' ->%release_reward_Aborted. done.
  - intros reg p i s_ref Hreg Hp Howner Hopen Hscan Hsolver.
    unfold release_reward. rewrite Hreg, Hp, Hopen, Hscan. simpl.
    rewrite (bool_decide_eq_true_2 _ Howner). simpl.
    rewrite (bool_decide_eq_true_2 _ Hsolver). simpl.
    case_decide as Hlt.
    + by rewrite (proj2 (coin_transfer_None _ _ _ _) Hlt).
    + destruct (coin_transfer _ _ _ _) eqn:Hb; [by eexists|].
      by apply coin_transfer_None in Hb.
Qed.

(** [release_reward] done on a state the entry functions accept: [B] is
    credited and paid. *)
Lemma C3_release_reward_atomic_witness :
  release_reward Scenario.A 1 1 (Scenario.credited_to Scenario.B 0)
    = Done (set_problem Scenario.A
              (Scenario.registry1 [Scenario.solution1 Scenario.B 0]) 1
              (Problem.close 1
                 (Scenario.problem1 [Scenario.solution1 Scenario.B 0]))
              (set_balances {[Scenario.A := 0; Scenario.B := Scenario.bounty]}
                 (Scenario.credited_to Scenario.B 0))) ∧
  ∃ reg p i s_ref,
    registries (Scenario.credited_to Scenario.B 0) !! Scenario.A = Some reg ∧
    problems reg !! 1 = Some p ∧
    scan 1 0 (Problem.solutions p) = Some (i, s_ref) ∧
    Solution.solver s_ref = Scenario.B.
Proof.
  split; [vm_compute; reflexivity|].
  destruct (proj1 (C3_release_reward_atomic Scenario.A 1 1
                     (Scenario.credited_to Scenario.B 0))
              (commit (Scenario.credited_to Scenario.B 0)
                 (release_reward Scenario.A 1 1
                    (Scenario.credited_to Scenario.B 0))))
    as (reg & p & i & s_ref & Hreg & Hp & _ & _ & Hscan & _);
    [vm_compute; reflexivity|].
  exists reg, p, i, s_ref. repeat split; try done.
  vm_compute in Hreg. injection Hreg as <-.
  vm_compute in Hp. injection Hp as <-.
  vm_compute in Hscan. by injection Hscan as _ <-.
Defined.

(** ** Closed problems *)

(** No write of an entry function reaches a closed problem. *)
Lemma problem_step_open a p p' : problem_step a p p' → Problem.open p = true.
Proof. by destruct 1. Qed.

Lemma closed_problem_frozen c s a reg k p :
  registries s !! a = Some reg →
  problems reg !! k = Some p →
  Problem.open p = false →
  ∃ reg', registries (commit s (exec c s)) !! a = Some reg' ∧
          problems reg' !! k = Some p.
Proof.
  intros Hreg Hp Hclosed.
  destruct (exec c s) as [s'|e s'] eqn:Hexec; simpl; [|by exists reg].
  apply exec_Done in Hexec as (reg' & Hstep & ->).
  destruct (decide (a = signer c)) as [->|Ha].
  - rewrite Hreg in Hstep. rewrite lookup_insert_eq. exists reg'.
    split; [done|]. inversion Hstep as [o ? ? ? ? Hfresh|? k0 p0 p0' Hp0 Hp0'];
      subst; simpl.
    + unfold ensured in *; simpl in *. rewrite lookup_insert_ne; [done|].
      intros <-. by rewrite Hfresh in Hp.
    + destruct (decide (k0 = k)) as [->|Hk]; [|by rewrite lookup_insert_ne].
      rewrite Hp in Hp0. injection Hp0 as <-.
      apply problem_step_open in Hp0'. by rewrite Hclosed in Hp0'.
  - exists reg. by rewrite lookup_insert_ne.
Qed.

Lemma closed_problem_frozen_run l s a reg k p :
  registries s !! a = Some reg →
  problems reg !! k = Some p →
  Problem.open p = false →
  ∃ reg', registries (run l s) !! a = Some reg' ∧ problems reg' !! k = Some p.
Proof.
  revert s reg. induction l as [|c l IH]; intros s reg Hreg Hp Hclosed; simpl.
  - by exists reg.
  - destruct (closed_problem_frozen c s a reg k p) as (reg' & Hreg' & Hp');
      [done..|]. by eapply IH.
Qed.

Lemma release_reward_closed owner problem_id solution_id s reg p :
  registries s !! owner = Some reg →
  problems reg !! problem_id = Some p →
  Problem.owner p = owner →
  Problem.open p = false →
  release_reward owner problem_id solution_id s = Aborted (ABORT 6) s.
Proof.
  intros Hreg Hp Howner Hclosed. unfold release_reward.
  rewrite Hreg, Hp, Hclosed. by rewrite (bool_decide_eq_true_2 _ Howner).
Qed.

(** C4.  In every reachable state [chosen] is set exactly when [open] is
    false, and every call, committed, keeps it so in any state.  A closed
    problem is final: whatever is called next, by whomever, the problem is
    found again under its id exactly as it was, closed.  After a
    [release_reward] that is done, and after any further transactions, every
    [release_reward] on that problem by its owner aborts on the check of
    [open] with code 6, in the state it started in: no coin moves. *)
Theorem C4_closed_problem_is_final :
  (∀ s, reachable s → every_registry (every_problem chosen_iff_closed) s) ∧
  (∀ s c, every_registry (every_problem chosen_iff_closed) s →
     every_registry (every_problem chosen_iff_closed) (commit s (exec c s))) ∧
  (∀ s c a reg k p,
     registries s !! a = Some reg → problems reg !! k = Some p →
     Problem.open p = false →
     ∃ reg', registries (commit s (exec c s)) !! a = Some reg' ∧
             problems reg' !! k = Some p) ∧
  (∀ s owner problem_id solution_id s',
     release_reward owner problem_id solution_id s = Done s' →
     ∀ l solution_id',
       release_reward owner problem_id solution_id' (run l s')
         = Aborted (ABORT 6) (run l s') ∧
       balances
         (commit (run l s')
            (release_reward owner problem_id solution_id' (run l s')))
         = balances (run l s')).
Proof.
  split; [|split; [|split]].
  - intros s Hs. eapply reachable_every_registry; [| |done].
    + apply every_problem_step_closed, chosen_iff_closed_steps.
    + apply every_problem_ensured_None.
  - intros s c. apply commit_every_registry.
    + apply every_problem_step_closed, chosen_iff_closed_steps.
    + apply every_problem_ensured_None.
  - intros s c a reg k p. apply closed_problem_frozen.
  - intros s owner problem_id solution_id s'
      (reg & p & i & s_ref & b & Hreg & Hp & Howner & Hopen & _ & _ & _ & ->)
        %release_reward_Done l solution_id'.
    destruct (closed_problem_frozen_run l
                (set_problem owner reg problem_id
                   (Problem.close solution_id p) (set_balances b s))
                owner
                {| next_problem_id := next_problem_id reg;
                   problems := <[problem_id := Problem.close solution_id p]>
                                 (problems reg) |}
                problem_id (Problem.close solution_id p))
      as (reg' & Hreg' & Hp'); simpl.
    + by rewrite lookup_insert_eq.
    + by rewrite lookup_insert_eq.
    + done.
    + erewrite release_reward_closed; [done|done|done|done|done].
Qed.

(** The release on [credited_to B 0] closes problem 1; a second one, after a
    vote and another problem, aborts with code 6. *)
Lemma C4_closed_problem_is_final_witness :
  release_reward Scenario.A 1 1
    (run [VoteSolution Scenario.A 1 1;
          CreateProblem Scenario.A [] [] [] 5]
       (commit (Scenario.credited_to Scenario.B 0)
          (release_reward Scenario.A 1 1 (Scenario.credited_to Scenario.B 0))))
  = Aborted (ABORT 6)
      (run [VoteSolution Scenario.A 1 1;
            CreateProblem Scenario.A [] [] [] 5]
         (commit (Scenario.credited_to Scenario.B 0)
            (release_reward Scenario.A 1 1 (Scenario.credited_to Scenario.B 0)))).
Proof.
  apply (proj2 (proj2 (proj2 C4_closed_problem_is_final))
           (Scenario.credited_to Scenario.B 0) Scenario.A 1 1).
  vm_compute. reflexivity.
Defined.

(** ** Problem ids *)

(** [create_problem] is done whenever the counter can be incremented and its
    value is not yet a key of the table. *)
Lemma create_problem_fresh account cid lat lng bounty_octas s :
  problems (ensured (registries s !! account)) !! next_id account s = None →
  next_id account s < u64_max →
  create_problem account cid lat lng bounty_octas s
    = Done (set_registry account
              {| next_problem_id := next_id account s + 1;
                 problems :=
                   <[next_id account s :=
                       new_problem (next_id account s) account cid lat lng
                         bounty_octas]>
                     (problems (ensured (registries s !! account))) |} s).
Proof.
  unfold next_id, create_problem, ensure_registry, ensured.
  destruct (registries s !! account) as [reg|] eqn:Hreg; simpl;
    intros Hfresh Hlt.
  - rewrite Hreg. rewrite checked_add_fits by lia. simpl. rewrite Hfresh.
    unfold set_problem. simpl. by rewrite set_registry_twice.
  - rewrite lookup_insert_eq. cbn [next_problem_id problems].
    rewrite checked_add_fits by lia. cbn [next_problem_id problems].
    rewrite lookup_empty. unfold set_problem. simpl.
    by rewrite !set_registry_twice.
Qed.

Lemma keys_contiguous_fresh a reg :
  keys_contiguous a reg → problems reg !! next_problem_id reg = None.
Proof.
  intros (_ & Hkeys & _). apply eq_None_not_Some. rewrite Hkeys. lia.
Qed.

Lemma next_id_set_registry a reg s : next_id a (set_registry a reg s) = next_problem_id reg.
Proof. unfold next_id, ensured; simpl. by rewrite lookup_insert_eq. Qed.

Lemma next_id_set_problem a a' reg k p s :
  registries s !! a' = Some reg →
  next_id a (set_problem a' reg k p s) = next_id a s.
Proof.
  intros Hreg. unfold next_id, ensured; simpl.
  destruct (decide (a = a')) as [->|Ha].
  - by rewrite lookup_insert_eq, Hreg.
  - by rewrite lookup_insert_ne.
Qed.

Lemma next_id_other c s a :
  (∀ cid lat lng bounty_octas, c ≠ CreateProblem a cid lat lng bounty_octas) →
  next_id a (commit s (exec c s)) = next_id a s.
Proof.
  intros Hc. destruct (exec c s) as [s'|e s'] eqn:Hexec; [|done]. simpl.
  destruct c as [a' cid lat lng b|a' k sv cid|a' k sid|a' k sid]; simpl in Hexec.
  - apply create_problem_Done in Hexec as (_ & _ & ->).
    unfold next_id at 1, ensured at 1; simpl. rewrite lookup_insert_ne; [done|].
    intros ->. by destruct (Hc cid lat lng b).
  - apply add_solution_Done in Hexec as (reg & p & Hreg & _ & _ & _ & _ & ->).
    by apply next_id_set_problem.
  - apply vote_solution_Done in Hexec
      as (reg & p & i & s_ref & Hreg & _ & _ & _ & _ & ->).
    by apply next_id_set_problem.
  - apply release_reward_Done in Hexec
      as (reg & p & i & s_ref & b & Hreg & _ & _ & _ & _ & _ & _ & ->).
    by rewrite next_id_set_problem.
Qed.

(** Successive creations by one signer, from any state whose registry for
    the signer has contiguous keys. *)
Lemma create_problems_ids account l : ∀ s,
  keys_contiguous account (ensured (registries s !! account)) →
  next_id account s + Z.of_nat (length l) ≤ u64_max →
  let reg' := ensured (registries (create_problems account l s) !! account) in
  keys_contiguous account reg' ∧
  next_problem_id reg' = next_id account s + Z.of_nat (length l) ∧
  (∀ k p, problems (ensured (registries s !! account)) !! k = Some p →
          problems reg' !! k = Some p) ∧
  (∀ (i : nat) x, l !! i = Some x →
     problems reg' !! (next_id account s + Z.of_nat i)
       = Some (new_problem (next_id account s + Z.of_nat i) account
                 (arg_cid x) (arg_lat x) (arg_lng x) (arg_bounty_octas x))).
Proof.
  induction l as [|x l IH]; intros s Hkeys Hle; simpl in *.
  - split; [exact Hkeys|]. split; [unfold next_id; lia|]. by split.
  - pose proof (keys_contiguous_fresh _ _ Hkeys) as Hfresh.
    rewrite create_problem_fresh by (done || lia). simpl.
    set (reg1 := {| next_problem_id := next_id account s + 1;
                    problems := _ |}).
    assert (Hreg1 : registries (set_registry account reg1 s) !! account
                    = Some reg1) by (simpl; by rewrite lookup_insert_eq).
    destruct (IH (set_registry account reg1 s))
      as (Hkeys' & Hnext' & Hold' & Hnew').
    + rewrite Hreg1. eapply keys_contiguous_step_closed; [|exact Hkeys].
      by apply step_create; [|unfold next_id in *; lia].
    + rewrite next_id_set_registry. simpl. lia.
    + rewrite next_id_set_registry in Hnext', Hnew'. rewrite Hreg1 in Hold'.
      simpl in *. split; [exact Hkeys'|]. split; [lia|]. split.
      * intros k p Hk. apply Hold'. unfold ensured at 1; simpl.
        rewrite lookup_insert_ne; [done|]. intros <-.
        unfold next_id in Hk. by rewrite Hfresh in Hk.
      * intros [|i] y Hy; simpl in Hy.
        -- injection Hy as <-. rewrite Z.add_0_r. apply Hold'.
           unfold ensured at 1; simpl. by rewrite lookup_insert_eq.
        -- specialize (Hnew' i y Hy).
           by replace (next_id account s + Z.of_nat (S i))
             with (next_id account s + 1 + Z.of_nat i) by lia.
Qed.

(** C5.  The ids of the problems of one owner count up from 1.
    - The first [create_problem] of an owner stores its problem under id 1.
    - A [create_problem] that is done stores its problem under the value of
      the counter, which was no key of the table, and leaves the counter one
      higher; no other call moves the counter of that owner.
    - So [n] successive calls by a new owner, [n] below [2^64 - 1], store
      their problems under 1, 2, ..., [n] in this order, and the keys of the
      table are exactly these.
    - In every reachable state the keys of a table are the numbers from 1 up
      to the counter, each problem under its own id, and the counter is
      above every key; every call, committed, keeps the counter above every
      key, in any state where it is. *)
Theorem C5_problem_ids_count_up :
  (∀ s account cid lat lng bounty_octas,
     registries s !! account = None →
     create_problem account cid lat lng bounty_octas s
       = Done (set_registry account
                 {| next_problem_id := 2;
                    problems :=
                      {[1 := new_problem 1 account cid lat lng bounty_octas]} |}
                 s)) ∧
  (∀ s account cid lat lng bounty_octas s',
     create_problem account cid lat lng bounty_octas s = Done s' →
     ∃ reg',
       registries s' !! account = Some reg' ∧
       problems (ensured (registries s !! account)) !! next_id account s
         = None ∧
       problems reg'
         = <[next_id account s :=
               new_problem (next_id account s) account cid lat lng
                 bounty_octas]>
             (problems (ensured (registries s !! account))) ∧
       next_id account s' = next_id account s + 1) ∧
  (∀ s c a,
     (∀ cid lat lng bounty_octas,
        c ≠ CreateProblem a cid lat lng bounty_octas) →
     next_id a (commit s (exec c s)) = next_id a s) ∧
  (∀ s account l,
     registries s !! account = None →
     Z.of_nat (length l) < u64_max →
     let reg := ensured (registries (create_problems account l s) !! account) in
     next_problem_id reg = Z.of_nat (length l) + 1 ∧
     (∀ k, is_Some (problems reg !! k) ↔ 1 ≤ k ≤ Z.of_nat (length l)) ∧
     (∀ (i : nat) x, l !! i = Some x →
        problems reg !! (Z.of_nat i + 1)
          = Some (new_problem (Z.of_nat i + 1) account (arg_cid x)
                    (arg_lat x) (arg_lng x) (arg_bounty_octas x)))) ∧
  (∀ s, reachable s →
     every_registry keys_contiguous s ∧
     every_registry counter_above_keys s) ∧
  (∀ s c,
     every_registry counter_above_keys s →
     every_registry counter_above_keys (commit s (exec c s))).
Proof.
  split; [|split; [|split; [|split; [|split]]]].
  - intros s account cid lat lng bounty_octas Hnone.
    rewrite create_problem_fresh; unfold next_id; rewrite Hnone; try done.
  - intros s account cid lat lng bounty_octas s' (Hfresh & Hle & ->)
      %create_problem_Done.
    eexists. split; [simpl; by rewrite lookup_insert_eq|].
    split; [done|]. split; [done|]. by rewrite next_id_set_registry.
  - intros s c a. apply next_id_other.
  - intros s account l Hnone Hlen.
    destruct (create_problems_ids account l s)
      as ((_ & Hkeys & _) & Hnext & _ & Hnew).
    + rewrite Hnone. apply keys_contiguous_ensured_None.
    + unfold next_id. rewrite Hnone. unfold ensured; simpl. lia.
    + unfold next_id in Hnext, Hnew. rewrite Hnone in Hnext, Hnew.
      unfold ensured at 2 in Hnext. unfold ensured at 2 3 in Hnew.
      simpl in Hnext, Hnew. split; [lia|]. split.
      * intros k. rewrite Hkeys, Hnext. lia.
      * intros i x Hx. specialize (Hnew i x Hx).
        by replace (Z.of_nat i + 1) with (1 + Z.of_nat i) by lia.
  - intros s Hs. split.
    + eapply reachable_every_registry; [| |done].
      * apply keys_contiguous_step_closed.
      * apply keys_contiguous_ensured_None.
    + eapply reachable_every_registry; [| |done].
      * apply counter_above_keys_step_closed.
      * apply counter_above_keys_ensured_None.
  - intros s c. apply commit_every_registry.
    + apply counter_above_keys_step_closed.
    + apply counter_above_keys_ensured_None.
Qed.

(** Three problems created by [A] at genesis sit under ids 1, 2 and 3. *)
Lemma C5_problem_ids_count_up_witness :
  let l := [mkArgs Scenario.Qm111 Scenario.lat Scenario.lng 7;
            mkArgs Scenario.Qm222 Scenario.lat Scenario.lng 8;
            mkArgs [] [] [] 9] in
  let reg := ensured (registries
                        (create_problems Scenario.A l Scenario.genesis)
                        !! Scenario.A) in
  next_problem_id reg = 4 ∧
  (∀ k, is_Some (problems reg !! k) ↔ 1 ≤ k ≤ 3) ∧
  problems reg !! 2
    = Some (new_problem 2 Scenario.A Scenario.Qm222 Scenario.lat
              Scenario.lng 8).
Proof.
  intros l reg.
  destruct (proj1 (proj2 (proj2 (proj2 C5_problem_ids_count_up)))
              Scenario.genesis Scenario.A l) as (Hnext & Hkeys & Hnew).
  - reflexivity.
  - reflexivity.
  - split; [exact Hnext|]. split; [exact Hkeys|]. exact (Hnew 1%nat _ eq_refl).
Defined.

(** ** vote_solution *)

(** What a write to one problem leaves alone: the coins, the other
    registries, the counter and the other problems of the registry. *)
Lemma set_problem_frame addr reg problem_id p s :
  registries s !! addr = Some reg →
  balances (set_problem addr reg problem_id p s) = balances s ∧
  (∀ a, a ≠ addr →
     registries (set_problem addr reg problem_id p s) !! a
       = registries s !! a) ∧
  ∃ reg',
    registries (set_problem addr reg problem_id p s) !! addr = Some reg' ∧
    next_problem_id reg' = next_problem_id reg ∧
    problems reg' !! problem_id = Some p ∧
    ∀ k, k ≠ problem_id → problems reg' !! k = problems reg !! k.
Proof.
  intros Hreg. split; [done|]. split.
  - intros a Ha. simpl. by rewrite lookup_insert_ne.
  - eexists. split; [simpl; by rewrite lookup_insert_eq|]. simpl.
    split; [done|]. split; [by rewrite lookup_insert_eq|].
    intros k Hk. by rewrite lookup_insert_ne.
Qed.

(** C6, as the code has it.  [vote_solution] on a problem that is in the
    signer's registry and open: when the scan stops at a solution, that
    solution is the first one carrying [solution_id]; if its [votes] is below
    [2^64 - 1] the call is done and the state differs from the one before in
    the [votes] of that solution only, which is one higher; at [2^64 - 1] the
    checked addition aborts the call.  When no solution carries
    [solution_id] the call aborts with code 4.  In both aborts the state is
    the one before the call. *)
Theorem C6_vote_solution_counts_one _voter problem_id solution_id s reg p :
  registries s !! _voter = Some reg →
  problems reg !! problem_id = Some p →
  Problem.open p = true →
  match scan solution_id 0 (Problem.solutions p) with
  | Some (i, s_ref) =>
      (Problem.solutions p !! i = Some s_ref ∧
       Solution.id s_ref = solution_id ∧
       ∀ (j : nat) sol, (j < i)%nat → Problem.solutions p !! j = Some sol →
         Solution.id sol ≠ solution_id) ∧
      if decide (Solution.votes s_ref < u64_max) then
        let l' := <[i := Solution.set_votes (Solution.votes s_ref + 1) s_ref]>
                    (Problem.solutions p) in
        vote_solution _voter problem_id solution_id s
          = Done (set_problem _voter reg problem_id
                    (Problem.set_solutions l' p) s) ∧
        l' !! i = Some {| Solution.id := Solution.id s_ref;
                          Solution.solver := Solution.solver s_ref;
                          Solution.cid := Solution.cid s_ref;
                          Solution.votes := Solution.votes s_ref + 1 |} ∧
        (∀ j : nat, j ≠ i → l' !! j = Problem.solutions p !! j) ∧
        length l' = length (Problem.solutions p)
      else
        vote_solution _voter problem_id solution_id s
          = Aborted ARITHMETIC_ERROR s
  | None =>
      (∀ sol, sol ∈ Problem.solutions p → Solution.id sol ≠ solution_id) ∧
      vote_solution _voter problem_id solution_id s = Aborted (ABORT 4) s
  end.
Proof.
  intros Hreg Hp Hopen. unfold vote_solution. rewrite Hreg, Hp, Hopen. simpl.
  destruct (scan _ _ _) as [[i s_ref]|] eqn:Hscan.
  - split; [by apply scan_Some_0|]. apply scan_Some_0 in Hscan as (Hi & _ & _).
    case_decide as Hlt.
    + rewrite checked_add_fits by lia. split; [done|]. split; [|split].
      * by rewrite list_lookup_insert_eq by (by eapply lookup_lt_Some).
      * intros j Hj. by rewrite list_lookup_insert_ne.
      * apply length_insert.
    + by rewrite (proj2 (checked_add_None _ _)) by lia.
  - split; [|done]. by eapply (proj1 (scan_None _ _ _)).
Qed.

(** The vote of [A] for its own solution 1. *)
Lemma C6_vote_solution_counts_one_witness :
  vote_solution Scenario.A 1 1 Scenario.solved = Done Scenario.voted.
Proof.
  pose proof (C6_vote_solution_counts_one Scenario.A 1 1 Scenario.solved
                (Scenario.registry1 [Scenario.solution1 Scenario.A 0])
                (Scenario.problem1 [Scenario.solution1 Scenario.A 0])
                eq_refl eq_refl eq_refl) as H.
  simpl in H. destruct H as (_ & H & _). rewrite H. reflexivity.
Defined.

(** C6 as stated fails on the code, in a state the entry functions lead to:
    problem 1 of [A] is open, [A] has voted [2^64 - 1] times for its
    solution 1, and the next [vote_solution] aborts instead of counting. *)
Lemma C6_vote_solution_saturated_counter :
  reachable (Scenario.credited_to Scenario.A u64_max) ∧
  registries (Scenario.credited_to Scenario.A u64_max) !! Scenario.A
    = Some (Scenario.registry1 [Scenario.solution1 Scenario.A u64_max]) ∧
  problems (Scenario.registry1 [Scenario.solution1 Scenario.A u64_max]) !! 1
    = Some (Scenario.problem1 [Scenario.solution1 Scenario.A u64_max]) ∧
  Problem.open (Scenario.problem1 [Scenario.solution1 Scenario.A u64_max])
    = true ∧
  scan 1 0
    (Problem.solutions
       (Scenario.problem1 [Scenario.solution1 Scenario.A u64_max]))
    = Some (0%nat, Scenario.solution1 Scenario.A u64_max) ∧
  vote_solution Scenario.A 1 1 (Scenario.credited_to Scenario.A u64_max)
    = Aborted ARITHMETIC_ERROR (Scenario.credited_to Scenario.A u64_max).
Proof.
  split.
  - rewrite <- (Z2Nat.id u64_max) by done. apply reachable_credited_to.
    by rewrite Z2Nat.id.
  - repeat split; vm_compute; reflexivity.
Qed.

(** ** add_solution *)

(** C7, as the code has it.  Every abort of [add_solution] leaves the state
    as it was: no registry under the signer, no problem under [problem_id],
    a closed problem (code 1), a solver other than the signer (code 2).
    With the problem there, open, and the signer as solver, the call is done
    as long as the sequence holds fewer than [2^64 - 1] solutions: it then
    holds one more, the new one last with [id = length + 1] and no votes,
    the earlier ones in place and unchanged; with [2^64 - 1] solutions the
    checked addition aborts the call. *)
Theorem C7_add_solution_appends account problem_id solver_addr cid s :
  (∀ e s', add_solution account problem_id solver_addr cid s = Aborted e s' →
     s' = s) ∧
  (registries s !! account = None →
     add_solution account problem_id solver_addr cid s
       = Aborted MISSING_DATA s) ∧
  (∀ reg, registries s !! account = Some reg →
     problems reg !! problem_id = None →
     add_solution account problem_id solver_addr cid s
       = Aborted TABLE_ENOT_FOUND s) ∧
  (∀ reg p, registries s !! account = Some reg →
     problems reg !! problem_id = Some p →
     (Problem.open p = false →
        add_solution account problem_id solver_addr cid s
          = Aborted (ABORT 1) s) ∧
     (Problem.open p = true → solver_addr ≠ account →
        add_solution account problem_id solver_addr cid s
          = Aborted (ABORT 2) s) ∧
     (Problem.open p = true → solver_addr = account →
        let n := length (Problem.solutions p) in
        if decide (Z.of_nat n < u64_max) then
          let sol := {| Solution.id := Z.of_nat n + 1;
                        Solution.solver := solver_addr; Solution.cid := cid;
                        Solution.votes := 0 |} in
          let l' := Problem.solutions p ++ [sol] in
          add_solution account problem_id solver_addr cid s
            = Done (set_problem account reg problem_id
                      (Problem.set_solutions l' p) s) ∧
          length l' = S n ∧ l' !! n = Some sol ∧
          (∀ i : nat, (i < n)%nat → l' !! i = Problem.solutions p !! i)
        else
          add_solution account problem_id solver_addr cid s
            = Aborted ARITHMETIC_ERROR s)).
Proof.
  split; [|split; [|split]].
  - intros e s'. apply add_solution_Aborted.
  - intros Hreg. unfold add_solution. by rewrite Hreg.
  - intros reg Hreg Hp. unfold add_solution. by rewrite Hreg, Hp.
  - intros reg p Hreg Hp. unfold add_solution. rewrite Hreg, Hp.
    split; [|split].
    + by intros ->.
    + intros -> Hne. simpl. by rewrite bool_decide_eq_false_2.
    + intros -> ->. simpl. rewrite bool_decide_eq_true_2 by done. simpl.
      case_decide as Hlt.
      * rewrite checked_add_fits by lia. split; [done|]. split; [|split].
        -- rewrite length_app. simpl. lia.
        -- by rewrite lookup_app_r, Nat.sub_diag.
        -- intros i Hi. by rewrite lookup_app_l.
      * by rewrite (proj2 (checked_add_None _ _)) by lia.
Qed.

(** The solution [A] adds to its problem 1. *)
Lemma C7_add_solution_appends_witness :
  add_solution Scenario.A 1 Scenario.A Scenario.Qm222 Scenario.created
    = Done Scenario.solved.
Proof.
  destruct (proj2 (proj2 (proj2
              (C7_add_solution_appends Scenario.A 1 Scenario.A Scenario.Qm222
                 Scenario.created)))
              (Scenario.registry1 []) (Scenario.problem1 []))
    as (_ & _ & H); [vm_compute; reflexivity..|].
  specialize (H eq_refl eq_refl). simpl in H. destruct H as [H _].
  rewrite H. reflexivity.
Defined.

(** C7 as stated fails on the code, in a state the entry functions lead to:
    problem 1 of [A] is open, [A] has added [2^64 - 1] solutions to it, and
    the next [add_solution], signed by [A] for [A], aborts instead of
    appending. *)
Lemma C7_add_solution_full_sequence :
  reachable Scenario.crowded ∧
  registries Scenario.crowded !! Scenario.A
    = Some (Scenario.registry1 (Scenario.numbered (Z.to_nat u64_max))) ∧
  problems (Scenario.registry1 (Scenario.numbered (Z.to_nat u64_max))) !! 1
    = Some (Scenario.problem1 (Scenario.numbered (Z.to_nat u64_max))) ∧
  Problem.open (Scenario.problem1 (Scenario.numbered (Z.to_nat u64_max)))
    = true ∧
  Z.of_nat
    (length
       (Problem.solutions
          (Scenario.problem1 (Scenario.numbered (Z.to_nat u64_max)))))
    = u64_max ∧
  add_solution Scenario.A 1 Scenario.A Scenario.Qm222 Scenario.crowded
    = Aborted ARITHMETIC_ERROR Scenario.crowded.
Proof.
  split; [|split; [|split; [|split; [|split]]]].
  - apply reachable_numbered. by rewrite Z2Nat.id.
  - apply lookup_singleton_eq.
  - apply lookup_singleton_eq.
  - done.
  - cbn [Scenario.problem1 Problem.set_solutions Problem.solutions].
    by rewrite length_numbered, Z2Nat.id.
  - unfold add_solution, Scenario.crowded, Scenario.with_solutions.
    cbn [registries]. rewrite lookup_singleton_eq.
    unfold Scenario.registry1 at 1. cbn [problems].
    rewrite lookup_singleton_eq.
    cbn [Scenario.problem1 Problem.set_solutions Problem.open
         Problem.solutions new_problem negb].
    rewrite bool_decide_eq_true_2 by done. cbn [negb].
    rewrite length_numbered, Z2Nat.id by done.
    by rewrite (proj2 (checked_add_None u64_max 1)) by lia.
Qed.

(** ** create_problem *)

Lemma reachable_keys_contiguous s a :
  reachable s → keys_contiguous a (ensured (registries s !! a)).
Proof.
  intros Hs. destruct (registries s !! a) as [reg|] eqn:Hreg.
  - eapply (reachable_every_registry keys_contiguous); [| |done..].
    + apply keys_contiguous_step_closed.
    + apply keys_contiguous_ensured_None.
  - apply keys_contiguous_ensured_None.
Qed.

(** In a reachable state [create_problem] is decided by the counter alone. *)
Lemma create_problem_reachable account cid lat lng bounty_octas s :
  reachable s →
  if decide (next_id account s < u64_max) then
    create_problem account cid lat lng bounty_octas s
      = Done (set_registry account
                {| next_problem_id := next_id account s + 1;
                   problems :=
                     <[next_id account s :=
                         new_problem (next_id account s) account cid lat lng
                           bounty_octas]>
                       (problems (ensured (registries s !! account))) |} s)
  else
    next_id account s = u64_max ∧
    create_problem account cid lat lng bounty_octas s
      = Aborted ARITHMETIC_ERROR s.
Proof.
  intros Hs. pose proof (reachable_keys_contiguous s account Hs) as Hkeys.
  case_decide as Hlt.
  - apply create_problem_fresh; [|done]. by eapply keys_contiguous_fresh.
  - destruct Hkeys as (Hnext & _). unfold next_id in *.
    split; [lia|]. unfold create_problem, ensure_registry.
    destruct (registries s !! account) as [reg|] eqn:Hreg.
    + unfold ensured in *; simpl in *. rewrite Hreg.
      by rewrite (proj2 (checked_add_None _ _)) by lia.
    + unfold ensured in Hlt; simpl in Hlt. by destruct Hlt.
Qed.

(** The counter of a signer can be driven to any value a [u64] holds. *)
Lemma reachable_counter account (n : nat) :
  Z.of_nat n < u64_max →
  ∃ s, reachable s ∧ next_id account s = Z.of_nat n + 1.
Proof.
  induction n as [|n IH]; intros Hn.
  - exists {| registries := ∅; balances := ∅ |}. split; [constructor|].
    by unfold next_id, ensured.
  - destruct IH as (s & Hs & Hnext); [lia|].
    pose proof (create_problem_reachable account [] [] [] 0 s Hs) as Hcreate.
    rewrite decide_True in Hcreate by lia.
    exists (commit s (exec (CreateProblem account [] [] [] 0) s)). split.
    + apply reachable_call; [done|]. by vm_compute.
    + simpl. rewrite Hcreate. simpl. rewrite next_id_set_registry. simpl. lia.
Qed.

(** C8, as the code has it.  In a reachable state, with the counter of the
    signer below [2^64 - 1], [create_problem] is done for all arguments: the
    registry of the signer, published if it was missing, has the counter one
    higher and the new problem under the old value of the counter, every
    other registry and every balance is as before.  With the counter at
    [2^64 - 1] the checked increment aborts the call and nothing changes.
    No other abort occurs: the registry is there after [ensure_registry] and
    the key is free. *)
Theorem C8_create_problem_done_below_limit s account cid lat lng bounty_octas :
  reachable s →
  (if decide (next_id account s < u64_max) then
     ∃ s',
       create_problem account cid lat lng bounty_octas s = Done s' ∧
       balances s' = balances s ∧
       (∀ a, a ≠ account → registries s' !! a = registries s !! a) ∧
       registries s' !! account
         = Some {| next_problem_id := next_id account s + 1;
                   problems :=
                     <[next_id account s :=
                         new_problem (next_id account s) account cid lat lng
                           bounty_octas]>
                       (problems (ensured (registries s !! account))) |}
   else
     next_id account s = u64_max ∧
     create_problem account cid lat lng bounty_octas s
       = Aborted ARITHMETIC_ERROR s) ∧
  (∀ s', create_problem account cid lat lng bounty_octas s
         ≠ Aborted MISSING_DATA s') ∧
  (∀ s', create_problem account cid lat lng bounty_octas s
         ≠ Aborted TABLE_EALREADY_EXISTS s').
Proof.
  intros Hs.
  pose proof (create_problem_reachable account cid lat lng bounty_octas s Hs)
    as Hcreate.
  case_decide as Hlt.
  - rewrite Hcreate. split; [|done]. eexists. split; [done|].
    split; [done|]. simpl. split.
    + intros a Ha. by rewrite lookup_insert_ne.
    + by rewrite lookup_insert_eq.
  - destruct Hcreate as (Hmax & ->). done.
Qed.

(** The second problem of [A] in the scenario. *)
Lemma C8_create_problem_done_below_limit_witness :
  ∃ s',
    create_problem Scenario.A [] [] [] 3 Scenario.created = Done s' ∧
    balances s' = balances Scenario.created ∧
    registries s' !! Scenario.A
      = Some {| next_problem_id := 3;
                problems :=
                  <[2 := new_problem 2 Scenario.A [] [] [] 3]>
                    {[1 := Scenario.problem1 []]} |}.
Proof.
  destruct (proj1 (C8_create_problem_done_below_limit Scenario.created
                     Scenario.A [] [] [] 3 reachable_created))
    as (s' & Hs' & Hb & _ & Hreg).
  exists s'. split; [exact Hs'|]. split; [exact Hb|]. exact Hreg.
Defined.

(** C8 as stated fails on the code: a reachable state in which
    [create_problem] aborts, the counter of the signer being at [2^64 - 1]. *)
Lemma C8_create_problem_counter_exhausted :
  ∃ s,
    reachable s ∧
    next_id Scenario.A s = u64_max ∧
    create_problem Scenario.A Scenario.Qm111 Scenario.lat Scenario.lng
      Scenario.bounty s
      = Aborted ARITHMETIC_ERROR s.
Proof.
  destruct (reachable_counter Scenario.A (Z.to_nat (u64_max - 1)))
    as (s & Hs & Hnext).
  - rewrite Z2Nat.id by done. lia.
  - rewrite Z2Nat.id in Hnext by done. exists s. split; [done|].
    split; [lia|].
    pose proof (create_problem_reachable Scenario.A Scenario.Qm111
                  Scenario.lat Scenario.lng Scenario.bounty s Hs) as Hcreate.
    rewrite decide_False in Hcreate by lia. apply Hcreate.
Qed.

(** ** Owners, solvers and the signer's registry *)

Lemma reachable_owned_by_registry s :
  reachable s → every_registry (every_problem owned_by_registry) s.
Proof.
  intros Hs. eapply reachable_every_registry; [| |done].
  - apply every_problem_step_closed, owned_by_registry_steps.
  - apply every_problem_ensured_None.
Qed.

(** C9.  In every reachable state every problem of the registry published
    at an address has that address as owner, and every call, committed,
    keeps it so.  Hence [release_reward], which looks the problem up in the
    registry of its signer, never aborts on its ownership check (code 5).
    A signer who is not the owner of a problem never reaches it: either no
    registry is published for the signer, or that registry has no problem
    under the id, or it has one, which the signer owns. *)
Theorem C9_owner_is_registry_address s :
  reachable s →
  every_registry (every_problem owned_by_registry) s ∧
  (∀ c, every_registry (every_problem owned_by_registry)
          (commit s (exec c s))) ∧
  (∀ caller problem_id solution_id s',
     release_reward caller problem_id solution_id s ≠ Aborted (ABORT 5) s') ∧
  (∀ a reg problem_id p caller solution_id,
     registries s !! a = Some reg →
     problems reg !! problem_id = Some p →
     caller ≠ Problem.owner p →
     caller ≠ a ∧
     match registries s !! caller with
     | None =>
         release_reward caller problem_id solution_id s
           = Aborted MISSING_DATA s
     | Some reg' =>
         match problems reg' !! problem_id with
         | None =>
             release_reward caller problem_id solution_id s
               = Aborted TABLE_ENOT_FOUND s
         | Some p' => Problem.owner p' = caller ∧ p' ≠ p
         end
     end).
Proof.
  intros Hs. pose proof (reachable_owned_by_registry s Hs) as Howned.
  split; [done|]. split; [|split].
  - intros c. apply commit_every_registry; [| |done].
    + apply every_problem_step_closed, owned_by_registry_steps.
    + apply every_problem_ensured_None.
  - intros caller problem_id solution_id s'. unfold release_reward.
    destruct (registries s !! caller) as [reg|] eqn:Hreg; [|done].
    destruct (problems reg !! problem_id) as [p|] eqn:Hp; [|done].
    rewrite bool_decide_eq_true_2 by (by eapply Howned). simpl.
    repeat case_match; done.
  - intros a reg problem_id p caller solution_id Hreg Hp Hcaller.
    pose proof (Howned a reg Hreg problem_id p Hp) as Hp_owner.
    unfold owned_by_registry in Hp_owner. split; [congruence|].
    unfold release_reward.
    destruct (registries s !! caller) as [reg'|] eqn:Hreg'; [|done].
    destruct (problems reg' !! problem_id) as [p'|] eqn:Hp'; [|done].
    pose proof (Howned caller reg' Hreg' problem_id p' Hp') as Hp'_owner.
    split; [done|]. congruence.
Qed.

(** [B] has no registry in the scenario: its [release_reward] on the problem
    of [A] aborts at the lookup of the registry. *)
Lemma C9_owner_is_registry_address_witness :
  release_reward Scenario.B 1 1 Scenario.solved
    = Aborted MISSING_DATA Scenario.solved.
Proof.
  destruct (C9_owner_is_registry_address Scenario.solved reachable_solved)
    as (_ & _ & _ & H).
  destruct (H Scenario.A
              (Scenario.registry1 [Scenario.solution1 Scenario.A 0]) 1
              (Scenario.problem1 [Scenario.solution1 Scenario.A 0])
              Scenario.B 1) as (_ & H'); [vm_compute; reflexivity..|done|].
  exact H'.
Defined.

(** ** Solution ids *)

Lemma ids_by_position_scan a p (i : nat) sol :
  ids_by_position a p →
  Problem.solutions p !! i = Some sol →
  scan (Z.of_nat i + 1) 0 (Problem.solutions p) = Some (i, sol).
Proof.
  intros Hids Hi.
  destruct (scan _ _ _) as [[j s_ref]|] eqn:Hscan.
  - apply scan_Some_0 in Hscan as (Hj & Hid & _).
    rewrite (Hids j s_ref Hj) in Hid. assert (j = i) as -> by lia. congruence.
  - pose proof (proj1 (scan_None _ _ _) Hscan sol) as Hno.
    destruct Hno; [by eapply list_elem_of_lookup_2|]. by apply Hids.
Qed.

(** C10.  In every reachable state the solution at position [i] of every
    problem has id [i + 1], and every call, committed, keeps it so in any
    state.  When it holds, two solutions with the same id are at the same
    position, the ids are the numbers from 1 to the length of the sequence,
    and the scan for the id [i + 1] stops at position [i]: [vote_solution]
    and [release_reward] have at most one solution to match. *)
Theorem C10_solution_ids_are_positions :
  (∀ s, reachable s → every_registry (every_problem ids_by_position) s) ∧
  (∀ s c, every_registry (every_problem ids_by_position) s →
     every_registry (every_problem ids_by_position) (commit s (exec c s))) ∧
  (∀ a p, ids_by_position a p →
     (∀ (i j : nat) si sj,
        Problem.solutions p !! i = Some si →
        Problem.solutions p !! j = Some sj →
        Solution.id si = Solution.id sj → i = j) ∧
     (∀ solution_id,
        (∃ sol, sol ∈ Problem.solutions p ∧ Solution.id sol = solution_id) ↔
        1 ≤ solution_id ≤ Z.of_nat (length (Problem.solutions p))) ∧
     (∀ (i : nat) sol,
        Problem.solutions p !! i = Some sol →
        scan (Z.of_nat i + 1) 0 (Problem.solutions p) = Some (i, sol))).
Proof.
  split; [|split].
  - intros s Hs. eapply reachable_every_registry; [| |done].
    + apply every_problem_step_closed, ids_by_position_steps.
    + apply every_problem_ensured_None.
  - intros s c. apply commit_every_registry.
    + apply every_problem_step_closed, ids_by_position_steps.
    + apply every_problem_ensured_None.
  - intros a p Hids. split; [|split].
    + intros i j si sj Hi Hj. rewrite (Hids i si Hi), (Hids j sj Hj). lia.
    + intros solution_id. split.
      * intros (sol & (i & Hi)%list_elem_of_lookup_1 & <-).
        rewrite (Hids i sol Hi). apply lookup_lt_Some in Hi. lia.
      * intros Hrange.
        destruct (lookup_lt_is_Some_2 (Problem.solutions p)
                    (Z.to_nat (solution_id - 1))) as [sol Hsol]; [lia|].
        exists sol. split; [by eapply list_elem_of_lookup_2|].
        rewrite (Hids _ sol Hsol). lia.
    + intros i sol. by apply (ids_by_position_scan a).
Qed.

(** The solution of the scenario is found by the scan for id 1. *)
Lemma C10_solution_ids_are_positions_witness :
  scan 1 0 (Problem.solutions
              (Scenario.problem1 [Scenario.solution1 Scenario.A 1]))
    = Some (0%nat, Scenario.solution1 Scenario.A 1) ∧
  registries Scenario.voted !! Scenario.A
    = Some (Scenario.registry1 [Scenario.solution1 Scenario.A 1]).
Proof.
  split; [|reflexivity].
  destruct C10_solution_ids_are_positions as (Hreach & _ & Hscan).
  apply (proj2 (proj2
           (Hscan Scenario.A
              (Scenario.problem1 [Scenario.solution1 Scenario.A 1])
              (Hreach Scenario.voted reachable_voted Scenario.A
                 (Scenario.registry1 [Scenario.solution1 Scenario.A 1])
                 eq_refl 1
                 (Scenario.problem1 [Scenario.solution1 Scenario.A 1])
                 eq_refl)))
           0%nat (Scenario.solution1 Scenario.A 1) eq_refl).
Defined.

(** ** release_reward in reachable states *)

Lemma reachable_solved_by_registry s :
  reachable s → every_registry (every_problem solved_by_registry) s.
Proof.
  intros Hs. eapply reachable_every_registry; [| |done].
  - apply every_problem_step_closed, solved_by_registry_steps.
  - apply every_problem_ensured_None.
Qed.

(** X1.  In every reachable state every solution stored in the registry
    published at an address credits that address: [add_solution] writes to
    the registry of its signer and takes no solver but its signer.  The
    lookup of [release_reward] reads a solver that is its signer as "no
    solution", so in a reachable state no [release_reward] is ever done. *)
Theorem X1_release_reward_never_done s :
  reachable s →
  every_registry (every_problem solved_by_registry) s ∧
  ∀ owner problem_id solution_id,
    ∃ e, release_reward owner problem_id solution_id s = Aborted e s.
Proof.
  intros Hs. pose proof (reachable_solved_by_registry s Hs) as Hsolved.
  split; [done|]. intros owner problem_id solution_id.
  destruct (release_reward owner problem_id solution_id s) as [s'|e s']
    eqn:Hrel.
  - apply release_reward_Done in Hrel
      as (reg & p & i & s_ref & b & Hreg & Hp & _ & _ & Hscan & Hsolver & _).
    apply scan_Some_0 in Hscan as (Hi & _).
    by destruct (Hsolver (Hsolved owner reg Hreg problem_id p Hp i s_ref Hi)).
  - apply release_reward_Aborted in Hrel as ->. by exists e.
Qed.

(** The release the scenario of section 8 ends with, once [A] has voted. *)
Lemma X1_release_reward_never_done_witness :
  ∃ e, release_reward Scenario.A 1 1 Scenario.voted = Aborted e Scenario.voted.
Proof.
  exact (proj2 (X1_release_reward_never_done Scenario.voted reachable_voted)
           Scenario.A 1 1).
Defined.

(** ** Whom a call reaches *)

Lemma exec_balances c s :
  (∀ owner problem_id solution_id,
     c ≠ ReleaseReward owner problem_id solution_id) →
  balances (commit s (exec c s)) = balances s.
Proof.
  intros Hc. destruct (exec c s) as [s'|e s'] eqn:Hexec; [|done].
  by eapply exec_Done_balances.
Qed.

Lemma release_reward_reachable owner problem_id solution_id s :
  reachable s →
  ∃ e, release_reward owner problem_id solution_id s = Aborted e s.
Proof.
  intros Hs. pose proof (reachable_solved_by_registry s Hs) as Hsolved.
  destruct (release_reward owner problem_id solution_id s) as [s'|e s']
    eqn:Hrel.
  - apply release_reward_Done in Hrel
      as (reg & p & i & s_ref & b & Hreg & Hp & _ & _ & Hscan & Hsolver & _).
    apply scan_Some_0 in Hscan as (Hi & _).
    by destruct (Hsolver (Hsolved owner reg Hreg problem_id p Hp i s_ref Hi)).
  - apply release_reward_Aborted in Hrel as ->. by exists e.
Qed.

(** X2.  A transaction reaches the registry of its signer and no other: the
    registry published at any other address is after the call what it was
    before, found or not.  Coins move in a [release_reward] only, and in a
    reachable state in no call at all. *)
Theorem X2_call_reaches_signer_only c s :
  (∀ a, a ≠ signer c →
     registries (commit s (exec c s)) !! a = registries s !! a) ∧
  ((∀ owner problem_id solution_id,
      c ≠ ReleaseReward owner problem_id solution_id) →
   balances (commit s (exec c s)) = balances s) ∧
  (reachable s → balances (commit s (exec c s)) = balances s).
Proof.
  split; [|split].
  - intros a Ha. destruct (exec c s) as [s'|e s'] eqn:Hexec; [|done].
    apply exec_Done in Hexec as (reg' & _ & Hs'). simpl. rewrite Hs'.
    by rewrite lookup_insert_ne.
  - apply exec_balances.
  - intros Hs. destruct c as [a cid lat lng b|a k sv cid|a k sid|a k sid];
      try (by apply exec_balances).
    simpl. by destruct (release_reward_reachable a k sid s Hs) as [e ->].
Qed.

(** The vote of [A] leaves an interloper's view of the ledger alone: nothing
    is published at [B] before or after. *)
Lemma X2_call_reaches_signer_only_witness :
  registries (commit Scenario.solved
                (exec (VoteSolution Scenario.A 1 1) Scenario.solved))
    !! Scenario.B = None ∧
  balances (commit Scenario.solved
              (exec (VoteSolution Scenario.A 1 1) Scenario.solved))
    = {[Scenario.A := Scenario.bounty]}.
Proof.
  destruct (X2_call_reaches_signer_only (VoteSolution Scenario.A 1 1)
              Scenario.solved) as (Hreg & Hbal & _).
  split.
  - rewrite Hreg; [reflexivity|]. by vm_compute.
  - rewrite Hbal; [reflexivity|done].
Defined.

(** ** What is stored stays *)

Lemma solution_extends_refl sol : solution_extends sol sol.
Proof. unfold solution_extends. repeat split; lia. Qed.

Lemma problem_extends_refl p : problem_extends p p.
Proof.
  unfold problem_extends. repeat split; try lia.
  intros i sol Hi. exists sol. split; [done|apply solution_extends_refl].
Qed.

Lemma problem_step_extends a p p' : problem_step a p p' → problem_extends p p'.
Proof.
  intros Hstep.
  destruct Hstep as [p cid _ _|p solution_id i s_ref _ Hscan _|p solution_id _ _];
    unfold problem_extends; simpl.
  - repeat split; try done.
    + rewrite length_app. simpl. lia.
    + rewrite length_app. simpl. lia.
    + intros i sol Hi. exists sol. split; [|apply solution_extends_refl].
      rewrite lookup_app_l; [done|]. by eapply lookup_lt_Some.
  - apply scan_Some_0 in Hscan as (Hi & _ & _).
    repeat split; try done.
    + by rewrite length_insert.
    + rewrite length_insert. lia.
    + intros j sol Hj. destruct (decide (j = i)) as [->|Hne].
      * rewrite list_lookup_insert_eq by (by eapply lookup_lt_Some).
        eexists. split; [done|]. rewrite Hi in Hj. injection Hj as <-.
        unfold solution_extends. simpl. repeat split; lia.
      * rewrite list_lookup_insert_ne by done. exists sol.
        split; [done|apply solution_extends_refl].
  - repeat split; try done; try lia.
    intros i sol Hi. exists sol. split; [done|apply solution_extends_refl].
Qed.

Lemma commit_extends c s a reg k p :
  registries s !! a = Some reg →
  problems reg !! k = Some p →
  ∃ reg' p',
    registries (commit s (exec c s)) !! a = Some reg' ∧
    problems reg' !! k = Some p' ∧
    problem_extends p p' ∧
    next_problem_id reg ≤ next_problem_id reg' ≤ next_problem_id reg + 1.
Proof.
  intros Hreg Hp.
  destruct (exec c s) as [s'|e s'] eqn:Hexec; simpl.
  2: { exists reg, p. repeat split; try done; try lia. apply problem_extends_refl. }
  apply exec_Done in Hexec as (reg' & Hstep & ->).
  destruct (decide (a = signer c)) as [->|Ha].
  2: { exists reg, p. rewrite lookup_insert_ne by done.
       repeat split; try done; try lia. apply problem_extends_refl. }
  rewrite Hreg in Hstep. rewrite lookup_insert_eq.
  inversion Hstep as [o ? ? ? ? Hfresh Hle|? k0 p0 p0' Hp0 Hp0']; subst.
  - unfold ensured in *; simpl in *. eexists _, p. split; [done|]. simpl.
    split; [|split; [apply problem_extends_refl|lia]].
    rewrite lookup_insert_ne; [done|]. intros <-. by rewrite Hfresh in Hp.
  - destruct (decide (k0 = k)) as [->|Hk].
    + rewrite Hp in Hp0. injection Hp0 as <-. eexists _, p0'.
      split; [done|]. simpl. rewrite lookup_insert_eq.
      split; [done|]. split; [by eapply problem_step_extends|lia].
    + eexists _, p. split; [done|]. simpl. rewrite lookup_insert_ne by done.
      split; [done|]. split; [apply problem_extends_refl|lia].
Qed.

(** X3.  No call removes or rewrites what is stored.  A problem found under
    an id before a call is found under it after the call, committed or
    aborted, with the same [id], [owner], [cid], [lat], [lng] and
    [bounty_octas]; each of its solutions is at the same position with the
    same [id], [solver] and [cid] and with the same votes or one more; at
    most one solution is appended.  The counter of the registry stays or
    goes up by one. *)
Theorem X3_call_keeps_what_is_stored c s a reg k p :
  registries s !! a = Some reg →
  problems reg !! k = Some p →
  ∃ reg' p',
    registries (commit s (exec c s)) !! a = Some reg' ∧
    problems reg' !! k = Some p' ∧
    problem_extends p p' ∧
    next_problem_id reg ≤ next_problem_id reg' ≤ next_problem_id reg + 1.
Proof. apply commit_extends. Qed.

(** The vote of the scenario: solution 1 keeps its place, id, solver and
    content and has one vote more. *)
Lemma X3_call_keeps_what_is_stored_witness :
  ∃ reg' p' sol',
    registries Scenario.voted !! Scenario.A = Some reg' ∧
    problems reg' !! 1 = Some p' ∧
    Problem.bounty_octas p' = Scenario.bounty ∧
    Problem.solutions p' !! 0%nat = Some sol' ∧
    solution_extends (Scenario.solution1 Scenario.A 0) sol'.
Proof.
  destruct (X3_call_keeps_what_is_stored (VoteSolution Scenario.A 1 1)
              Scenario.solved Scenario.A
              (Scenario.registry1 [Scenario.solution1 Scenario.A 0]) 1
              (Scenario.problem1 [Scenario.solution1 Scenario.A 0])
              eq_refl eq_refl)
    as (reg' & p' & Hreg' & Hp' & Hext & _).
  destruct Hext as (_ & _ & _ & _ & _ & Hbounty & _ & Hsols).
  destruct (Hsols 0%nat (Scenario.solution1 Scenario.A 0) eq_refl)
    as (sol' & Hsol' & Hext').
  exists reg', p', sol'. split; [exact Hreg'|]. split; [exact Hp'|].
  split; [exact Hbounty|]. split; [exact Hsol'|exact Hext'].
Defined.

Lemma solution_extends_grows sol sol' :
  solution_extends sol sol' → solution_grows sol sol'.
Proof. intros (? & ? & ? & ? & ?). by repeat split. Qed.

Lemma problem_extends_grows p p' : problem_extends p p' → problem_grows p p'.
Proof.
  intros (? & ? & ? & ? & ? & ? & [? ?] & Hsols). repeat split; try done.
  intros i sol Hi. destruct (Hsols i sol Hi) as (sol' & ? & ?).
  exists sol'. split; [done|by apply solution_extends_grows].
Qed.

Lemma problem_grows_trans p1 p2 p3 :
  problem_grows p1 p2 → problem_grows p2 p3 → problem_grows p1 p3.
Proof.
  intros (? & ? & ? & ? & ? & ? & ? & H12) (? & ? & ? & ? & ? & ? & ? & H23).
  repeat split; try congruence; try lia.
  intros i sol Hi. destruct (H12 i sol Hi) as (sol2 & Hi2 & ? & ? & ? & ?).
  destruct (H23 i sol2 Hi2) as (sol3 & Hi3 & ? & ? & ? & ?).
  exists sol3. split; [done|]. repeat split; try congruence; lia.
Qed.

(** X4.  Over any sequence of transactions, by any signers: a problem once
    stored is never removed, its [id], [owner], [cid], [lat], [lng] and
    [bounty_octas] never change, its solutions are never removed, reordered
    or re-attributed, their votes never go down, and the counter of the
    registry never goes down. *)
Theorem X4_history_only_grows l s a reg k p :
  registries s !! a = Some reg →
  problems reg !! k = Some p →
  ∃ reg' p',
    registries (run l s) !! a = Some reg' ∧
    problems reg' !! k = Some p' ∧
    problem_grows p p' ∧
    next_problem_id reg ≤ next_problem_id reg'.
Proof.
  revert s reg p. induction l as [|c l IH]; intros s reg p Hreg Hp; simpl.
  - exists reg, p. repeat split; try done; try lia.
    intros i sol Hi. exists sol. by repeat split.
  - destruct (commit_extends c s a reg k p Hreg Hp)
      as (reg1 & p1 & Hreg1 & Hp1 & Hext & Hnext).
    destruct (IH _ _ _ Hreg1 Hp1) as (reg' & p' & Hreg' & Hp' & Hgrow & Hnext').
    exists reg', p'. split; [done|]. split; [done|]. split; [|lia].
    eapply problem_grows_trans; [|done]. by apply problem_extends_grows.
Qed.

(** Two more votes, a second solution and a second problem later, solution 1
    of problem 1 is where it was, with no fewer votes. *)
Lemma X4_history_only_grows_witness :
  ∃ reg' p' sol',
    registries
      (run [VoteSolution Scenario.A 1 1;
            AddSolution Scenario.A 1 Scenario.A Scenario.Qm111;
            CreateProblem Scenario.A [] [] [] 0;
            VoteSolution Scenario.A 1 1] Scenario.solved)
      !! Scenario.A = Some reg' ∧
    problems reg' !! 1 = Some p' ∧
    Problem.solutions p' !! 0%nat = Some sol' ∧
    solution_grows (Scenario.solution1 Scenario.A 0) sol' ∧
    2 ≤ next_problem_id reg'.
Proof.
  destruct (X4_history_only_grows
              [VoteSolution Scenario.A 1 1;
               AddSolution Scenario.A 1 Scenario.A Scenario.Qm111;
               CreateProblem Scenario.A [] [] [] 0;
               VoteSolution Scenario.A 1 1]
              Scenario.solved Scenario.A
              (Scenario.registry1 [Scenario.solution1 Scenario.A 0]) 1
              (Scenario.problem1 [Scenario.solution1 Scenario.A 0])
              eq_refl eq_refl)
    as (reg' & p' & Hreg' & Hp' & Hgrow & Hnext).
  destruct Hgrow as (_ & _ & _ & _ & _ & _ & _ & Hsols).
  destruct (Hsols 0%nat (Scenario.solution1 Scenario.A 0) eq_refl)
    as (sol' & Hsol' & Hgrow').
  exists reg', p', sol'. split; [exact Hreg'|]. split; [exact Hp'|].
  split; [exact Hsol'|]. split; [exact Hgrow'|exact Hnext].
Defined.

(** ** Ranges *)

Lemma u64_set_problem s a reg k p p' :
  every_registry u64_registry s →
  registries s !! a = Some reg →
  problems reg !! k = Some p →
  u64_problem p' →
  every_registry u64_registry (set_problem a reg k p' s).
Proof.
  intros Hs Hreg Hp Hp' a' reg'. simpl.
  destruct (decide (a' = a)) as [->|Ha]; [|rewrite lookup_insert_ne by done; apply Hs].
  rewrite lookup_insert_eq. intros [= <-].
  destruct (Hs a reg Hreg) as [Hnext Hprobs]. split; [done|]. simpl.
  intros k' q. destruct (decide (k' = k)) as [->|Hk].
  - rewrite lookup_insert_eq. intros [= <-]. split; [|done].
    by destruct (Hprobs k p Hp).
  - rewrite lookup_insert_ne by done. apply Hprobs.
Qed.

Lemma reachable_u64 s : reachable s → every_registry u64_registry s.
Proof.
  induction 1 as [b|s b _ IH|s c Hs IH Hc].
  - intros a reg. simpl. by rewrite lookup_empty.
  - exact IH.
  - destruct (exec c s) as [s'|e s'] eqn:Hexec; [|exact IH]. simpl.
    destruct c as [a cid lat lng b|a k sv cid|a k sid|a k sid]; simpl in *.
    + apply create_problem_Done in Hexec as (Hfresh & Hle & ->).
      assert (Hreg0 : u64_registry a (ensured (registries s !! a))).
      { destruct (registries s !! a) as [reg|] eqn:Hreg; [by eapply IH|].
        unfold ensured; simpl. split; [unfold is_u64, u64_max; simpl; lia|].
        simpl. intros k p. by rewrite lookup_empty. }
      destruct Hreg0 as [Hnext Hprobs].
      intros a' reg'. simpl.
      destruct (decide (a' = a)) as [->|Ha];
        [|rewrite lookup_insert_ne by done; apply IH].
      rewrite lookup_insert_eq. intros [= <-]. unfold is_u64 in *.
      split; [unfold is_u64; simpl; lia|]. simpl. intros k p.
      destruct (decide (k = next_problem_id (ensured (registries s !! a))))
        as [->|Hk].
      * rewrite lookup_insert_eq. intros [= <-]. unfold is_u64. split; [done|].
        unfold u64_problem, is_u64; simpl. repeat split; try done; try lia.
      * rewrite lookup_insert_ne by done. apply Hprobs.
    + apply add_solution_Done in Hexec
        as (reg & p & Hreg & Hp & _ & _ & Hle & ->).
      eapply u64_set_problem; [done..|].
      destruct (IH a reg Hreg) as [_ Hprobs].
      destruct (Hprobs k p Hp) as (_ & Hid & Hbounty & Hlen & Hchosen & Hsols).
      unfold u64_problem; simpl. split; [done|]. split; [done|].
      split; [rewrite length_app; simpl; lia|]. split; [done|].
      intros i sol [Hi|[_ Hi]]%lookup_app_Some; [by eapply Hsols|].
      apply list_lookup_singleton_Some in Hi as [_ <-]. simpl.
      unfold is_u64. split; [lia|]. unfold u64_max. lia.
    + apply vote_solution_Done in Hexec
        as (reg & p & i & s_ref & Hreg & Hp & _ & Hscan & Hle & ->).
      eapply u64_set_problem; [done..|].
      destruct (IH a reg Hreg) as [_ Hprobs].
      destruct (Hprobs k p Hp) as (_ & Hid & Hbounty & Hlen & Hchosen & Hsols).
      apply scan_Some_0 in Hscan as (Hi & _ & _).
      unfold u64_problem; simpl. split; [done|]. split; [done|].
      split; [by rewrite length_insert|]. split; [done|].
      intros j sol. destruct (decide (j = i)) as [->|Hj].
      * rewrite list_lookup_insert_eq by (by eapply lookup_lt_Some).
        intros [= <-]. simpl. destruct (Hsols i s_ref Hi) as [? [? ?]].
        split; [done|]. unfold is_u64. lia.
      * rewrite list_lookup_insert_ne by done. apply Hsols.
    + destruct (release_reward_reachable a k sid s Hs) as [e He].
      by rewrite He in Hexec.
Qed.

(** X5.  In every reachable state every number that is stored fits its
    [u64] field: the counter of each registry, the key and the [id] of each
    problem, its [bounty_octas], its chosen solution if any, the [id] and
    the [votes] of each solution, and the length of each sequence of
    solutions. *)
Theorem X5_stored_numbers_are_u64 s :
  reachable s → every_registry u64_registry s.
Proof. apply reachable_u64. Qed.

(** The vote count of the scenario. *)
Lemma X5_stored_numbers_are_u64_witness :
  is_u64 (Solution.votes (Scenario.solution1 Scenario.A 1)) ∧
  is_u64 (next_problem_id
            (Scenario.registry1 [Scenario.solution1 Scenario.A 1])).
Proof.
  destruct (X5_stored_numbers_are_u64 Scenario.voted reachable_voted
              Scenario.A
              (Scenario.registry1 [Scenario.solution1 Scenario.A 1]) eq_refl)
    as [Hnext Hprobs].
  split; [|exact Hnext].
  destruct (Hprobs 1 (Scenario.problem1 [Scenario.solution1 Scenario.A 1])
              eq_refl) as (_ & _ & _ & _ & _ & Hsols).
  exact (proj2 (Hsols 0%nat (Scenario.solution1 Scenario.A 1) eq_refl)).
Defined.

(** ** Transactions of different signers *)

Lemma set_registry_commute a b ra rb s :
  a ≠ b →
  set_registry a ra (set_registry b rb s)
    = set_registry b rb (set_registry a ra s).
Proof.
  intros Hab. unfold set_registry; simpl. f_equal. by apply insert_insert_ne.
Qed.

Lemma set_problem_set_registry a reg k p b r s :
  a ≠ b →
  set_problem a reg k p (set_registry b r s)
    = set_registry b r (set_problem a reg k p s).
Proof. intros Hab. unfold set_problem. by apply set_registry_commute. Qed.

(** A registry published elsewhere is out of sight of a call. *)
Lemma exec_set_registry c b r s :
  b ≠ signer c →
  exec c (set_registry b r s) = map_outcome (set_registry b r) (exec c s).
Proof.
  intros Hb.
  destruct c as [a cid lat lng bo|a k sv cid|a k sid|a k sid]; simpl in *.
  - unfold create_problem, ensure_registry. simpl.
    rewrite lookup_insert_ne by done.
    destruct (registries s !! a) as [reg|] eqn:Hreg; simpl.
    + rewrite lookup_insert_ne by done. rewrite Hreg.
      destruct (checked_add _ 1) as [n|]; [|reflexivity]. simpl.
      destruct (problems reg !! _); simpl; same_ledger.
    + rewrite !lookup_insert_eq.
      destruct (checked_add _ 1) as [n|]; simpl; [|same_ledger].
      rewrite lookup_empty. same_ledger.
  - unfold add_solution. simpl. rewrite lookup_insert_ne by done.
    repeat (case_match; try reflexivity); simpl; same_ledger.
  - unfold vote_solution. simpl. rewrite lookup_insert_ne by done.
    repeat (case_match; try reflexivity); simpl; same_ledger.
  - unfold release_reward. simpl. rewrite lookup_insert_ne by done.
    repeat (case_match; try reflexivity); simpl; same_ledger.
Qed.

(** The coins are out of sight of every call but [release_reward]. *)
Lemma exec_set_balances c bal s :
  moves_no_coins c →
  exec c (set_balances bal s) = map_outcome (set_balances bal) (exec c s).
Proof.
  destruct c as [a cid lat lng bo|a k sv cid|a k sid|a k sid]; simpl;
    intros Hc; [| | |done].
  - unfold create_problem, ensure_registry. simpl.
    destruct (registries s !! a) as [reg|] eqn:Hreg; simpl.
    + rewrite Hreg. repeat (case_match; try reflexivity).
    + rewrite !lookup_insert_eq. repeat (case_match; try reflexivity).
  - unfold add_solution. simpl. repeat (case_match; try reflexivity).
  - unfold vote_solution. simpl. repeat (case_match; try reflexivity).
Qed.

Lemma exec_Done_shape c s s' :
  exec c s = Done s' →
  ∃ r b, s' = set_balances b (set_registry (signer c) r s).
Proof.
  intros (r & _ & Hr)%exec_Done. exists r, (balances s').
  destruct s' as [regs bs]. simpl in *. by rewrite Hr.
Qed.

Lemma exec_Done_shape_no_coins c s s' :
  moves_no_coins c →
  exec c s = Done s' →
  ∃ r, s' = set_registry (signer c) r s.
Proof.
  intros Hc Hexec. pose proof Hexec as (r & _ & Hr)%exec_Done. exists r.
  pose proof (exec_Done_balances c s s' Hexec) as Hb.
  destruct s' as [regs bs]. simpl in *. rewrite Hr, Hb; [done|].
  intros o k sid ->. by destruct Hc.
Qed.

Lemma run_swap c1 c2 s :
  signer c1 ≠ signer c2 →
  moves_no_coins c2 →
  run [c1; c2] s = run [c2; c1] s.
Proof.
  intros Hne Hc2. simpl.
  destruct (exec c1 s) as [s1|e1 s1] eqn:H1;
    destruct (exec c2 s) as [s2|e2 s2] eqn:H2; simpl.
  - destruct (exec_Done_shape c1 s s1 H1) as (r1 & b1 & ->).
    destruct (exec_Done_shape_no_coins c2 s s2 Hc2 H2) as (r2 & ->).
    rewrite exec_set_balances, !exec_set_registry by done.
    rewrite H1, H2. simpl. same_ledger.
  - destruct (exec_Done_shape c1 s s1 H1) as (r1 & b1 & ->).
    rewrite exec_set_balances, exec_set_registry by done.
    rewrite H1, H2. done.
  - destruct (exec_Done_shape_no_coins c2 s s2 Hc2 H2) as (r2 & ->).
    rewrite exec_set_registry by done. rewrite H1, H2. done.
  - by rewrite H1, H2.
Qed.

(** X6.  Transactions of different signers commute, unless both are
    [release_reward]: in either order the two leave the same ledger, each
    done or aborted as it would have been alone. *)
Theorem X6_different_signers_commute c1 c2 s :
  signer c1 ≠ signer c2 →
  moves_no_coins c1 ∨ moves_no_coins c2 →
  run [c1; c2] s = run [c2; c1] s.
Proof.
  intros Hne [Hc|Hc].
  - symmetry. by apply run_swap.
  - by apply run_swap.
Qed.

(** [B] opens a registry of its own while [A] votes. *)
Lemma X6_different_signers_commute_witness :
  run [VoteSolution Scenario.A 1 1; CreateProblem Scenario.B [] [] [] 7]
    Scenario.solved
  = run [CreateProblem Scenario.B [] [] [] 7; VoteSolution Scenario.A 1 1]
      Scenario.solved.
Proof.
  apply X6_different_signers_commute.
  - by vm_compute.
  - by left.
Defined.

(** ** Votes of one signer *)

Lemma scan_first solution_id l : ∀ (i0 i : nat) s_ref,
  l !! i = Some s_ref →
  Solution.id s_ref = solution_id →
  (∀ (j : nat) sol, (j < i)%nat → l !! j = Some sol →
     Solution.id sol ≠ solution_id) →
  scan solution_id i0 l = Some ((i0 + i)%nat, s_ref).
Proof.
  induction l as [|x l IH]; intros i0 i s_ref Hi Hid Hfirst; [done|].
  simpl. destruct i as [|i]; simpl in Hi.
  - injection Hi as ->. rewrite bool_decide_eq_true_2 by done.
    by rewrite Nat.add_0_r.
  - rewrite bool_decide_eq_false_2 by (by apply (Hfirst 0%nat); [lia|]).
    rewrite (IH (S i0) i s_ref Hi Hid).
    + do 2 f_equal. lia.
    + intros j sol Hj Hl. apply (Hfirst (S j)); [lia|done].
Qed.

Lemma scan_set_votes solution_id l i s_ref v :
  scan solution_id 0 l = Some (i, s_ref) →
  scan solution_id 0 (<[i := Solution.set_votes v s_ref]> l)
    = Some (i, Solution.set_votes v s_ref).
Proof.
  intros (Hi & Hid & Hfirst)%scan_Some_0.
  apply (scan_first solution_id _ 0 i).
  - rewrite list_lookup_insert_eq; [done|]. by eapply lookup_lt_Some.
  - done.
  - intros j sol Hj. rewrite list_lookup_insert_ne by lia. by apply Hfirst.
Qed.

Lemma vote_solution_found _voter problem_id solution_id s reg p i s_ref :
  registries s !! _voter = Some reg →
  problems reg !! problem_id = Some p →
  Problem.open p = true →
  scan solution_id 0 (Problem.solutions p) = Some (i, s_ref) →
  Solution.votes s_ref + 1 ≤ u64_max →
  vote_solution _voter problem_id solution_id s
    = Done (set_problem _voter reg problem_id
              (Problem.set_solutions
                 (<[i := Solution.set_votes (Solution.votes s_ref + 1) s_ref]>
                    (Problem.solutions p)) p) s).
Proof.
  intros Hreg Hp Hopen Hscan Hle. unfold vote_solution.
  rewrite Hreg, Hp, Hopen, Hscan. simpl. by rewrite checked_add_fits.
Qed.

(** X7.  Nothing limits the votes of one signer: [n] successive
    [vote_solution] transactions with the same signer and arguments, on an
    open problem of the signer's registry that has a solution with the id,
    are all counted, as long as the counter stays within [u64].  The solution
    the scan stops at is then still the first with that id, with [n] votes
    more, and the problem is still open. *)
Theorem X7_one_signer_votes_many_times (n : nat) :
  ∀ s _voter problem_id solution_id reg p i s_ref,
    registries s !! _voter = Some reg →
    problems reg !! problem_id = Some p →
    Problem.open p = true →
    scan solution_id 0 (Problem.solutions p) = Some (i, s_ref) →
    Solution.votes s_ref + Z.of_nat n ≤ u64_max →
    ∃ reg' p',
      registries
        (run (replicate n (VoteSolution _voter problem_id solution_id)) s)
        !! _voter = Some reg' ∧
      problems reg' !! problem_id = Some p' ∧
      Problem.open p' = true ∧
      scan solution_id 0 (Problem.solutions p')
        = Some (i, Solution.set_votes (Solution.votes s_ref + Z.of_nat n)
                     s_ref).
Proof.
  induction n as [|n IH];
    intros s _voter problem_id solution_id reg p i s_ref Hreg Hp Hopen Hscan Hle.
  - exists reg, p. simpl. rewrite Z.add_0_r. repeat split; try done.
    rewrite Hscan. by destruct s_ref.
  - simpl. rewrite (vote_solution_found _ _ _ _ reg p i s_ref) by (done || lia).
    simpl.
    edestruct (IH (set_problem _voter reg problem_id
                     (Problem.set_solutions
                        (<[i := Solution.set_votes (Solution.votes s_ref + 1)
                                  s_ref]> (Problem.solutions p)) p) s)
                 _voter problem_id solution_id)
      as (reg' & p' & Hreg' & Hp' & Hopen' & Hscan').
    + simpl. by rewrite lookup_insert_eq.
    + simpl. by rewrite lookup_insert_eq.
    + done.
    + simpl. by apply scan_set_votes.
    + simpl. lia.
    + exists reg', p'. split; [done|]. split; [done|]. split; [done|].
      rewrite Hscan'. unfold Solution.set_votes; simpl. do 3 f_equal. lia.
Qed.

(** Three votes of [A] for its own solution. *)
Lemma X7_one_signer_votes_many_times_witness :
  ∃ reg' p',
    registries
      (run (replicate 3 (VoteSolution Scenario.A 1 1)) Scenario.solved)
      !! Scenario.A = Some reg' ∧
    problems reg' !! 1 = Some p' ∧
    Problem.open p' = true ∧
    scan 1 0 (Problem.solutions p')
      = Some (0%nat, Scenario.solution1 Scenario.A 3).
Proof.
  exact (X7_one_signer_votes_many_times 3 Scenario.solved Scenario.A 1 1
           (Scenario.registry1 [Scenario.solution1 Scenario.A 0])
           (Scenario.problem1 [Scenario.solution1 Scenario.A 0])
           0%nat (Scenario.solution1 Scenario.A 0)
           eq_refl eq_refl eq_refl eq_refl
           ltac:(by vm_compute)).
Defined.

(** The sentinel of the lookup, when every solution credits the signer. *)
Lemma release_reward_own owner problem_id solution_id s reg p :
  registries s !! owner = Some reg →
  problems reg !! problem_id = Some p →
  Problem.owner p = owner →
  Problem.open p = true →
  (∀ (i : nat) sol, Problem.solutions p !! i = Some sol →
     Solution.solver sol = owner) →
  release_reward owner problem_id solution_id s = Aborted (ABORT 7) s.
Proof.
  intros Hreg Hp Howner Hopen Hsolved. unfold release_reward.
  rewrite Hreg, Hp, Hopen. rewrite (bool_decide_eq_true_2 _ Howner). simpl.
  destruct (scan _ _ _) as [[i s_ref]|] eqn:Hscan.
  - apply scan_Some_0 in Hscan as (Hi & _).
    by rewrite bool_decide_eq_false_2
      by (intros Hne; by destruct (Hne (Hsolved i s_ref Hi))).
  - by rewrite bool_decide_eq_false_2 by (by intros []).
Qed.

(** ** Problems stay open *)

Lemma reachable_all_open s :
  reachable s → every_registry (every_problem all_open) s.
Proof.
  induction 1 as [b|s b _ IH|s c Hs IH Hc].
  - intros a reg. simpl. by rewrite lookup_empty.
  - exact IH.
  - destruct (exec c s) as [s'|e s'] eqn:Hexec; [|exact IH]. simpl.
    assert (Hset : ∀ a reg k p p',
              registries s !! a = Some reg → problems reg !! k = Some p →
              all_open a p' →
              every_registry (every_problem all_open)
                (set_problem a reg k p' s)).
    { intros a reg k p p' Hreg Hp Hp' a' reg'. simpl.
      destruct (decide (a' = a)) as [->|Ha];
        [|rewrite lookup_insert_ne by done; apply IH].
      rewrite lookup_insert_eq. intros [= <-] k' q. simpl.
      destruct (decide (k' = k)) as [->|Hk].
      - rewrite lookup_insert_eq. by intros [= <-].
      - rewrite lookup_insert_ne by done. by apply (IH a reg Hreg). }
    destruct c as [a cid lat lng b|a k sv cid|a k sid|a k sid]; simpl in *.
    + apply create_problem_Done in Hexec as (Hfresh & Hle & ->).
      intros a' reg'. simpl.
      destruct (decide (a' = a)) as [->|Ha];
        [|rewrite lookup_insert_ne by done; apply IH].
      rewrite lookup_insert_eq. intros [= <-] k q. simpl.
      destruct (decide (k = next_problem_id (ensured (registries s !! a))))
        as [->|Hk].
      * rewrite lookup_insert_eq. by intros [= <-].
      * rewrite lookup_insert_ne by done.
        destruct (registries s !! a) as [reg|] eqn:Hreg;
          [by apply (IH a reg Hreg)|].
        unfold ensured; simpl. by rewrite lookup_empty.
    + apply add_solution_Done in Hexec
        as (reg & p & Hreg & Hp & _ & _ & _ & ->).
      eapply Hset; [done..|]. exact (IH a reg Hreg k p Hp).
    + apply vote_solution_Done in Hexec
        as (reg & p & i & s_ref & Hreg & Hp & _ & _ & _ & ->).
      eapply Hset; [done..|]. exact (IH a reg Hreg k p Hp).
    + destruct (release_reward_reachable a k sid s Hs) as [e He].
      by rewrite He in Hexec.
Qed.

(** X8.  In every reachable state every problem is open and has no chosen
    solution: no sequence of transactions closes a problem.  The checks of
    [open] therefore never fail ([add_solution] code 1, [vote_solution]
    code 3, [release_reward] code 6), and [release_reward] never gets as far
    as the transfer: it aborts at a lookup or with code 7. *)
Theorem X8_no_problem_is_ever_closed s :
  reachable s →
  every_registry (every_problem all_open) s ∧
  (∀ account problem_id solver_addr cid s',
     add_solution account problem_id solver_addr cid s
       ≠ Aborted (ABORT 1) s') ∧
  (∀ _voter problem_id solution_id s',
     vote_solution _voter problem_id solution_id s ≠ Aborted (ABORT 3) s') ∧
  (∀ owner problem_id solution_id,
     release_reward owner problem_id solution_id s = Aborted MISSING_DATA s ∨
     release_reward owner problem_id solution_id s
       = Aborted TABLE_ENOT_FOUND s ∨
     release_reward owner problem_id solution_id s = Aborted (ABORT 7) s).
Proof.
  intros Hs. pose proof (reachable_all_open s Hs) as Hopen.
  split; [done|]. split; [|split].
  - intros a k sv cid s'. unfold add_solution.
    destruct (registries s !! a) as [reg|] eqn:Hreg; [|done].
    destruct (problems reg !! k) as [p|] eqn:Hp; [|done].
    destruct (Hopen a reg Hreg k p Hp) as [-> _]. simpl.
    repeat case_match; done.
  - intros a k sid s'. unfold vote_solution.
    destruct (registries s !! a) as [reg|] eqn:Hreg; [|done].
    destruct (problems reg !! k) as [p|] eqn:Hp; [|done].
    destruct (Hopen a reg Hreg k p Hp) as [-> _]. simpl.
    repeat case_match; done.
  - intros a k sid.
    destruct (registries s !! a) as [reg|] eqn:Hreg;
      [|left; unfold release_reward; by rewrite Hreg].
    destruct (problems reg !! k) as [p|] eqn:Hp;
      [|right; left; unfold release_reward; by rewrite Hreg, Hp].
    right; right. eapply release_reward_own; [done..| | |].
    + exact (reachable_owned_by_registry s Hs a reg Hreg k p Hp).
    + exact (proj1 (Hopen a reg Hreg k p Hp)).
    + exact (reachable_solved_by_registry s Hs a reg Hreg k p Hp).
Qed.

(** After the vote of the scenario problem 1 is open, and the release that
    names its solution aborts with code 7. *)
Lemma X8_no_problem_is_ever_closed_witness :
  Problem.open (Scenario.problem1 [Scenario.solution1 Scenario.A 1]) = true ∧
  release_reward Scenario.A 1 1 Scenario.voted
    = Aborted (ABORT 7) Scenario.voted.
Proof.
  destruct (X8_no_problem_is_ever_closed Scenario.voted reachable_voted)
    as (Hopen & _ & _ & Hrel).
  split.
  - exact (proj1 (Hopen Scenario.A
                    (Scenario.registry1 [Scenario.solution1 Scenario.A 1])
                    eq_refl 1
                    (Scenario.problem1 [Scenario.solution1 Scenario.A 1])
                    eq_refl)).
  - destruct (Hrel Scenario.A 1 1) as [H|[H|H]]; [| |exact H];
      vm_compute in H; discriminate H.
Defined.

(** ** From creation to release *)

(** X9.  The whole course of a problem, in any reachable state in which the
    signer's counter is below [2^64 - 1]: [create_problem], then
    [add_solution] and [vote_solution] for the new id, all by the same
    signer, are done and leave the new problem open with one solution,
    numbered 1, credited to the signer, with one vote.  Every
    [release_reward] of the signer on that problem then aborts with code 7,
    whichever solution it names. *)
Theorem X9_course_of_a_problem s account cid lat lng bounty_octas cid' :
  reachable s →
  next_id account s < u64_max →
  let k := next_id account s in
  let s' := run [CreateProblem account cid lat lng bounty_octas;
                 AddSolution account k account cid';
                 VoteSolution account k 1] s in
  registries s' !! account
    = Some {| next_problem_id := k + 1;
              problems :=
                <[k := Problem.set_solutions
                         [{| Solution.id := 1; Solution.solver := account;
                             Solution.cid := cid'; Solution.votes := 1 |}]
                         (new_problem k account cid lat lng bounty_octas)]>
                  (problems (ensured (registries s !! account))) |} ∧
  ∀ solution_id,
    release_reward account k solution_id s' = Aborted (ABORT 7) s'.
Proof.
  intros Hs Hlt k s'. subst s'. simpl.
  pose proof (create_problem_reachable account cid lat lng bounty_octas s Hs)
    as Hcreate.
  rewrite decide_True in Hcreate by done. rewrite Hcreate. simpl.
  fold k. set (reg0 := ensured (registries s !! account)).
  set (p0 := new_problem k account cid lat lng bounty_octas).
  set (r1 := {| next_problem_id := k + 1;
                problems := <[k := p0]> (problems reg0) |}).
  set (s1 := set_registry account r1 s).
  assert (Hadd : add_solution account k account cid' s1
            = Done (set_problem account r1 k
                      (Problem.set_solutions
                         [{| Solution.id := 1; Solution.solver := account;
                             Solution.cid := cid'; Solution.votes := 0 |}]
                         p0) s1)).
  { unfold add_solution. subst s1; simpl. rewrite lookup_insert_eq.
    subst r1; simpl. rewrite lookup_insert_eq. simpl.
    by rewrite bool_decide_eq_true_2. }
  rewrite Hadd. simpl.
  set (p1 := Problem.set_solutions _ p0).
  set (s2 := set_problem account r1 k p1 s1).
  assert (Hvote : vote_solution account k 1 s2
            = Done (set_problem account
                      {| next_problem_id := k + 1;
                         problems := <[k := p1]> (problems r1) |} k
                      (Problem.set_solutions
                         [{| Solution.id := 1; Solution.solver := account;
                             Solution.cid := cid'; Solution.votes := 1 |}]
                         p1) s2)).
  { unfold vote_solution. subst s2; simpl. rewrite lookup_insert_eq. simpl.
    rewrite lookup_insert_eq. reflexivity. }
  rewrite Hvote. simpl. split.
  - rewrite lookup_insert_eq. subst r1. simpl. by rewrite !insert_insert_eq.
  - intros solution_id. eapply release_reward_own.
    + simpl. by rewrite lookup_insert_eq.
    + simpl. by rewrite lookup_insert_eq.
    + done.
    + done.
    + intros [|[|i]] sol; simpl; [by intros [= <-]|done|done].
Qed.

(** The course of the second problem of [A]. *)
Lemma X9_course_of_a_problem_witness :
  release_reward Scenario.A 2 1
    (run [CreateProblem Scenario.A [] [] [] 5;
          AddSolution Scenario.A 2 Scenario.A Scenario.Qm222;
          VoteSolution Scenario.A 2 1] Scenario.voted)
  = Aborted (ABORT 7)
      (run [CreateProblem Scenario.A [] [] [] 5;
            AddSolution Scenario.A 2 Scenario.A Scenario.Qm222;
            VoteSolution Scenario.A 2 1] Scenario.voted).
Proof.
  apply (X9_course_of_a_problem Scenario.voted Scenario.A [] [] [] 5
           Scenario.Qm222 reachable_voted).
  by vm_compute.
Defined.

(** * The browser side *)

(** ** Slices *)

Lemma slice_head (n : nat) (s : Js.string) :
  Js.slice 0 (Some (Z.of_nat n)) s = take n s.
Proof.
  unfold Js.slice, Js.clamp. rewrite !decide_False by lia.
  rewrite (Z.min_l 0) by lia. change (Z.to_nat 0) with 0%nat.
  rewrite drop_0, Z.sub_0_r.
  destruct (decide (n ≤ length s)%nat) as [Hn|Hn].
  - rewrite Z.min_l by lia. by rewrite Nat2Z.id.
  - rewrite Z.min_r by lia. rewrite Nat2Z.id.
    by rewrite !take_ge by lia.
Qed.

Lemma slice_tail (n : nat) (s : Js.string) :
  (0 < n)%nat →
  Js.slice (- Z.of_nat n) None s = drop (length s - n) s.
Proof.
  intros Hn. unfold Js.slice, Js.clamp. rewrite decide_True by lia.
  assert (Z.to_nat (Z.max (Z.of_nat (length s) + - Z.of_nat n) 0)
          = (length s - n)%nat) as Hfrom by lia.
  rewrite Hfrom. apply take_ge. rewrite length_drop. lia.
Qed.

(** X10.  [truncate] keeps up to six code units from the front and up to
    four from the back around three dots.  On an address of ten units or
    more the units in between, and only they, are left out.  On a shorter
    one front and back overlap and units appear twice: up to four units the
    whole address stands on both sides of the dots.  The result is shorter
    than the address only when the address has more than thirteen units. *)
Theorem X10_truncate_keeps_both_ends (addr : Js.string) :
  length (Wallet.truncate addr)
    = (length addr `min` 6 + 3 + length addr `min` 4)%nat ∧
  ((length addr ≤ 4)%nat →
     Wallet.truncate addr = addr ++ Js.lit ["."; "."; "."]%byte ++ addr) ∧
  ((10 ≤ length addr)%nat →
     ∃ front middle back,
       addr = front ++ middle ++ back ∧
       length front = 6%nat ∧ length back = 4%nat ∧
       Wallet.truncate addr
         = front ++ Js.lit ["."; "."; "."]%byte ++ back) ∧
  ((length (Wallet.truncate addr) < length addr)%nat ↔
   (13 < length addr)%nat).
Proof.
  unfold Wallet.truncate.
  change (Js.slice 0 (Some 6) addr)
    with (Js.slice 0 (Some (Z.of_nat 6)) addr).
  change (Js.slice (-4) None addr) with (Js.slice (- Z.of_nat 4) None addr).
  rewrite (slice_head 6 addr), (slice_tail 4 addr) by lia.
  assert (Hlen : length (take 6 addr ++ Js.lit ["."; "."; "."]%byte
                          ++ drop (length addr - 4) addr)
                 = (length addr `min` 6 + 3 + length addr `min` 4)%nat).
  { rewrite !length_app, length_take, length_drop.
    change (length (Js.lit ["."; "."; "."]%byte)) with 3%nat. lia. }
  split; [exact Hlen|]. split; [|split].
  - intros Hshort. rewrite take_ge by lia.
    by replace (length addr - 4)%nat with 0%nat by lia.
  - intros Hlong.
    exists (take 6 addr), (take (length addr - 10) (drop 6 addr)),
      (drop (length addr - 4) addr).
    split; [|split; [|split]].
    + rewrite <- (take_drop 6 addr) at 1. f_equal.
      rewrite <- (take_drop (length addr - 10) (drop 6 addr)) at 1. f_equal.
      rewrite drop_drop. f_equal. lia.
    + rewrite length_take. lia.
    + rewrite length_drop. lia.
    + done.
  - rewrite Hlen. lia.
Qed.

(** An account address of 66 units, and the word [abc]. *)
Lemma X10_truncate_keeps_both_ends_witness :
  Wallet.truncate (Js.lit ["a"; "b"; "c"]%byte)
    = Js.lit ["a"; "b"; "c"; "."; "."; "."; "a"; "b"; "c"]%byte ∧
  length (Wallet.truncate (Js.lit ["0"; "x"]%byte ++ replicate 64 48%N))
    = 13%nat.
Proof.
  destruct (X10_truncate_keeps_both_ends (Js.lit ["a"; "b"; "c"]%byte))
    as (_ & Hshort & _).
  destruct (X10_truncate_keeps_both_ends
              (Js.lit ["0"; "x"]%byte ++ replicate 64 48%N)) as (Hlen & _).
  split.
  - rewrite Hshort; [reflexivity|]. simpl. lia.
  - rewrite Hlen. reflexivity.
Defined.

(** ** formatAddress *)

Lemma join_truthy sep (l : list (option Js.string)) :
  l ≠ [] →
  Forall (λ x, Js.truthy x = true) l →
  Js.truthy (Some (Js.join sep l)) = true.
Proof.
  destruct l as [|x l]; [done|]. intros _ Hall.
  apply Forall_cons in Hall as [Hx _].
  destruct x as [[|c x]|]; try done. by destruct l.
Qed.

(** X11.  [formatAddress] lists the house number, the road, the
    neighbourhood or else the suburb, the city and the state, in this order,
    those that are there and not empty, separated by a comma and a space.
    With at least one of them the result is not empty; with none it is the
    display name.  So the result is empty only when the display name is and
    nothing else is there.  The suburb is not read when there is a
    neighbourhood, the postcode and the country never. *)
Theorem X11_formatAddress_parts (r : Geocoding.ReverseGeocodeResult) :
  let a := Geocoding.address r in
  let present :=
    filter (λ x, Js.truthy x = true)
      [Geocoding.house_number a; Geocoding.road a;
       Js.or (Geocoding.neighbourhood a) (Geocoding.suburb a);
       Geocoding.city a; Geocoding.state a] in
  (present ≠ [] →
     Geocoding.formatAddress r = Js.join (Js.lit [","; " "]%byte) present ∧
     Geocoding.formatAddress r ≠ []) ∧
  (present = [] → Geocoding.formatAddress r = Geocoding.display_name r) ∧
  (Geocoding.formatAddress r = [] →
     Geocoding.display_name r = [] ∧ present = []) ∧
  (∀ suburb' postcode' country',
     Js.truthy (Geocoding.neighbourhood a) = true →
     Geocoding.formatAddress
       (Geocoding.mkResult (Geocoding.display_name r)
          (Geocoding.mkAddress (Geocoding.house_number a) (Geocoding.road a)
             (Geocoding.neighbourhood a) suburb' (Geocoding.city a)
             (Geocoding.state a) postcode' country'))
     = Geocoding.formatAddress r) ∧
  (∀ postcode' country',
     Geocoding.formatAddress
       (Geocoding.mkResult (Geocoding.display_name r)
          (Geocoding.mkAddress (Geocoding.house_number a) (Geocoding.road a)
             (Geocoding.neighbourhood a) (Geocoding.suburb a)
             (Geocoding.city a) (Geocoding.state a) postcode' country'))
     = Geocoding.formatAddress r).
Proof.
  intros a present.
  assert (Hjoin : present ≠ [] →
            Js.truthy (Some (Js.join (Js.lit [","; " "]%byte) present)) = true).
  { intros Hne. apply join_truthy; [done|]. apply Forall_forall.
    intros x Hx. by apply list_elem_of_filter in Hx as [? _]. }
  assert (Hsome : present ≠ [] →
            Geocoding.formatAddress r
              = Js.join (Js.lit [","; " "]%byte) present).
  { intros Hne. unfold Geocoding.formatAddress. fold a. fold present.
    by rewrite (Hjoin Hne). }
  assert (Hnone : present = [] →
            Geocoding.formatAddress r = Geocoding.display_name r).
  { intros Hnil. unfold Geocoding.formatAddress. fold a. fold present.
    by rewrite Hnil. }
  split; [|split; [|split; [|split]]].
  - intros Hne. split; [by apply Hsome|]. rewrite (Hsome Hne).
    intros Hnil. specialize (Hjoin Hne). by rewrite Hnil in Hjoin.
  - exact Hnone.
  - intros Hempty. destruct (decide (present = [])) as [Hnil|Hne].
    + split; [|done]. by rewrite <- (Hnone Hnil).
    + specialize (Hjoin Hne). rewrite <- (Hsome Hne), Hempty in Hjoin. done.
  - intros suburb' postcode' country' Hn.
    unfold Geocoding.formatAddress; simpl. fold a.
    unfold Js.or. by rewrite Hn.
  - intros postcode' country'. unfold Geocoding.formatAddress; simpl.
    by fold a.
Qed.

(** A road and a city, and a result with a display name only. *)
Lemma X11_formatAddress_parts_witness :
  Geocoding.formatAddress
    (Geocoding.mkResult (Js.lit ["X"]%byte)
       (Geocoding.mkAddress None (Some (Js.lit ["M"; "a"; "i"; "n"]%byte))
          (Some []) None (Some (Js.lit ["R"; "i"; "o"]%byte)) None None
          (Some (Js.lit ["B"; "R"]%byte))))
    = Js.lit ["M"; "a"; "i"; "n"; ","; " "; "R"; "i"; "o"]%byte ∧
  Geocoding.formatAddress
    (Geocoding.mkResult (Js.lit ["X"]%byte)
       (Geocoding.mkAddress None (Some []) None None None None None
          (Some (Js.lit ["B"; "R"]%byte))))
    = Js.lit ["X"]%byte.
Proof.
  split.
  - destruct (X11_formatAddress_parts
                (Geocoding.mkResult (Js.lit ["X"]%byte)
                   (Geocoding.mkAddress None
                      (Some (Js.lit ["M"; "a"; "i"; "n"]%byte))
                      (Some []) None (Some (Js.lit ["R"; "i"; "o"]%byte))
                      None None (Some (Js.lit ["B"; "R"]%byte)))))
      as (H & _).
    destruct H as [H _]; [by vm_compute|]. rewrite H. reflexivity.
  - destruct (X11_formatAddress_parts
                (Geocoding.mkResult (Js.lit ["X"]%byte)
                   (Geocoding.mkAddress None (Some []) None None None None
                      None (Some (Js.lit ["B"; "R"]%byte)))))
      as (_ & H & _).
    rewrite H; reflexivity.
Defined.

(** ** IPFS upload *)

Lemma trim_start_nil_iff (s : Js.string) :
  Js.trim_start s = [] ↔ Forall (λ c, Js.is_space c = true) s.
Proof.
  induction s as [|c s IH]; simpl; [done|].
  destruct (Js.is_space c) eqn:Hc.
  - rewrite IH. split; [by constructor|]. by intros [_ ?]%Forall_cons.
  - split; [done|]. intros [Hc' _]%Forall_cons. congruence.
Qed.

(** [trim] leaves nothing exactly of the strings of white space. *)
Lemma trim_nil_iff (s : Js.string) :
  Js.trim s = [] ↔ Forall (λ c, Js.is_space c = true) s.
Proof.
  unfold Js.trim. split.
  - intros H. apply (f_equal reverse) in H. rewrite reverse_involutive in H.
    change (reverse []) with (@nil N) in H.
    apply trim_start_nil_iff in H. apply (proj1 (Forall_reverse _ _)) in H.
    destruct (Js.trim_start s) as [|c s'] eqn:Hs.
    + by apply trim_start_nil_iff.
    + exfalso. assert (Hc : Js.is_space c = false).
      { clear H. induction s as [|d s IH]; simpl in Hs; [done|].
        destruct (Js.is_space d) eqn:Hd; [by apply IH|].
        injection Hs as <- _. done. }
      apply Forall_cons in H as [H _]. congruence.
  - intros H. apply trim_start_nil_iff in H. rewrite H. done.
Qed.

Lemma startsWith_eyJ_not_blank (token : Js.string) :
  Js.startsWith (Js.lit ["e"; "y"; "J"]%byte) token = true →
  Js.trim token ≠ [].
Proof.
  intros Hstart Hblank. apply trim_nil_iff in Hblank.
  destruct token as [|c token]; [done|]. simpl in Hstart.
  apply andb_true_iff in Hstart as [Hc _]. apply bool_decide_eq_true in Hc.
  apply Forall_cons in Hblank as [Hblank _]. subst c. by vm_compute in Hblank.
Qed.

(** X12.  [uploadFileToIPFS] checks its arguments before it contacts any
    service: a token that is empty or white space fails with "token
    required", and a missing file with "file required".  Otherwise it tries
    NFT.Storage if the token starts with [eyJ], then Pinata, then
    Web3.Storage, and resolves to the value of the first that yields one,
    having contacted that service and those before it and no other; it
    fails with "failed to upload to any service" exactly when all of them
    were contacted and none yielded.  A token that starts with [eyJ] is
    never taken for blank. *)
Theorem X12_upload_first_service_wins {V} (net : Ipfs.services V)
    (apiToken : Js.string) (file : bool) :
  (Js.trim apiToken = [] →
     Ipfs.uploadFileToIPFS net apiToken file
       = Ipfs.mkOutcome (inr Ipfs.Token_required) []) ∧
  (Js.trim apiToken ≠ [] → file = false →
     Ipfs.uploadFileToIPFS net apiToken file
       = Ipfs.mkOutcome (inr Ipfs.File_required) []) ∧
  (Js.trim apiToken ≠ [] → file = true →
     Ipfs.uploadFileToIPFS net apiToken file
       = match Ipfs.first_yield net (Ipfs.order apiToken) with
         | Some (v, seen) => Ipfs.mkOutcome (inl v) seen
         | None => Ipfs.mkOutcome (inr Ipfs.All_failed) (Ipfs.order apiToken)
         end) ∧
  (Ipfs.contacted (Ipfs.uploadFileToIPFS net apiToken file)
     `prefix_of` Ipfs.order apiToken) ∧
  (Js.startsWith (Js.lit ["e"; "y"; "J"]%byte) apiToken = true →
     Js.trim apiToken ≠ []).
Proof.
  assert (Hblank : Js.trim apiToken = [] →
            Ipfs.uploadFileToIPFS net apiToken file
              = Ipfs.mkOutcome (inr Ipfs.Token_required) []).
  { intros Hb. unfold Ipfs.uploadFileToIPFS.
    rewrite (bool_decide_eq_true_2 _ Hb). by rewrite orb_true_r. }
  assert (Htruthy : Js.trim apiToken ≠ [] →
            negb (Js.truthy (Some apiToken))
            || bool_decide (Js.trim apiToken = []) = false).
  { intros Hb. rewrite (bool_decide_eq_false_2 _ Hb), orb_false_r.
    destruct apiToken; [by destruct Hb|done]. }
  assert (Hrun : Js.trim apiToken ≠ [] →
            Ipfs.uploadFileToIPFS net apiToken true
              = match Ipfs.first_yield net (Ipfs.order apiToken) with
                | Some (v, seen) => Ipfs.mkOutcome (inl v) seen
                | None =>
                    Ipfs.mkOutcome (inr Ipfs.All_failed) (Ipfs.order apiToken)
                end).
  { intros Hb. unfold Ipfs.uploadFileToIPFS, Ipfs.order.
    rewrite (Htruthy Hb).
    destruct (Js.startsWith (Js.lit ["e"; "y"; "J"]%byte) apiToken); simpl;
      destruct (Ipfs.nft_storage net), (Ipfs.pinata net),
        (Ipfs.web3_storage net); reflexivity. }
  split; [exact Hblank|]. split; [|split; [by intros Hb ->; apply Hrun|split]].
  - intros Hb ->. unfold Ipfs.uploadFileToIPFS. by rewrite (Htruthy Hb).
  - destruct (decide (Js.trim apiToken = [])) as [Hb|Hb].
    + rewrite (Hblank Hb). apply prefix_nil.
    + destruct file.
      * rewrite (Hrun Hb). unfold Ipfs.order.
        destruct (Js.startsWith (Js.lit ["e"; "y"; "J"]%byte) apiToken);
          simpl;
          destruct (Ipfs.nft_storage net), (Ipfs.pinata net),
            (Ipfs.web3_storage net); simpl;
          repeat (apply prefix_cons || apply prefix_nil || done).
      * unfold Ipfs.uploadFileToIPFS. rewrite (Htruthy Hb). apply prefix_nil.
  - apply startsWith_eyJ_not_blank.
Qed.

(** A Pinata token: NFT.Storage is not asked, Pinata refuses, Web3.Storage
    yields, and nobody is asked when the token is a blank and a tab. *)
Lemma X12_upload_first_service_wins_witness :
  Ipfs.uploadFileToIPFS
    (Ipfs.mkServices N (Some 1%N) Ipfs.Not_ok (Ipfs.Yields 3%N))
    (Js.lit ["k"; "e"; "y"]%byte) true
    = Ipfs.mkOutcome (inl 3%N) [Ipfs.Pinata; Ipfs.Web3_Storage] ∧
  Ipfs.uploadFileToIPFS
    (Ipfs.mkServices N (Some 1%N) Ipfs.Not_ok (Ipfs.Yields 3%N))
    [32; 9]%N true
    = Ipfs.mkOutcome (inr Ipfs.Token_required) [].
Proof.
  split.
  - destruct (X12_upload_first_service_wins
                (Ipfs.mkServices N (Some 1%N) Ipfs.Not_ok (Ipfs.Yields 3%N))
                (Js.lit ["k"; "e"; "y"]%byte) true) as (_ & _ & H & _).
    rewrite H; [reflexivity|by vm_compute|reflexivity].
  - destruct (X12_upload_first_service_wins
                (Ipfs.mkServices N (Some 1%N) Ipfs.Not_ok (Ipfs.Yields 3%N))
                [32; 9]%N true) as (H & _).
    rewrite H; reflexivity.
Defined.

(** X13.  [uploadJSONToIPFS] looks at the data first: falsy data fails with
    "data required" whatever the token, and data that [JSON.stringify]
    rejects fails with its error.  Other data is uploaded as a file that is
    present, so "file required" never comes out of this function.  A service
    is contacted exactly when the data is serialised and the token is not
    blank, and Pinata or NFT.Storage is then the first. *)
Theorem X13_uploadJSON_checks_data_first {V} (net : Ipfs.services V)
    (apiToken : Js.string) (d : Ipfs.data) :
  (d = Ipfs.Falsy →
     Ipfs.uploadJSONToIPFS net apiToken d
       = Ipfs.mkOutcome (inr Ipfs.Data_required) []) ∧
  (d = Ipfs.Plain →
     Ipfs.uploadJSONToIPFS net apiToken d
       = Ipfs.uploadFileToIPFS net apiToken true) ∧
  Ipfs.result (Ipfs.uploadJSONToIPFS net apiToken d)
    ≠ inr Ipfs.File_required ∧
  (Ipfs.contacted (Ipfs.uploadJSONToIPFS net apiToken d) ≠ [] ↔
   d = Ipfs.Plain ∧ Js.trim apiToken ≠ []) ∧
  (Ipfs.contacted (Ipfs.uploadJSONToIPFS net apiToken d)
     `prefix_of` Ipfs.order apiToken).
Proof.
  assert (Hblank : Js.trim apiToken = [] →
            Ipfs.uploadFileToIPFS net apiToken true
              = Ipfs.mkOutcome (inr Ipfs.Token_required) []).
  { intros Hb. unfold Ipfs.uploadFileToIPFS.
    rewrite (bool_decide_eq_true_2 _ Hb). by rewrite orb_true_r. }
  assert (Hrun : Js.trim apiToken ≠ [] →
            Ipfs.uploadFileToIPFS net apiToken true
              = match Ipfs.first_yield net (Ipfs.order apiToken) with
                | Some (v, seen) => Ipfs.mkOutcome (inl v) seen
                | None =>
                    Ipfs.mkOutcome (inr Ipfs.All_failed) (Ipfs.order apiToken)
                end).
  { intros Hb. unfold Ipfs.uploadFileToIPFS, Ipfs.order.
    rewrite (bool_decide_eq_false_2 _ Hb), orb_false_r.
    destruct apiToken as [|c token]; [by destruct Hb|]. cbn [Js.truthy negb].
    destruct (Js.startsWith (Js.lit ["e"; "y"; "J"]%byte) (c :: token)); simpl;
      destruct (Ipfs.nft_storage net), (Ipfs.pinata net),
        (Ipfs.web3_storage net); reflexivity. }
  split; [by intros ->|]. split; [by intros ->|].
  destruct (decide (Js.trim apiToken = [])) as [Hb|Hb].
  - destruct d; simpl; rewrite ?(Hblank Hb); simpl.
    all: split; [done|]. all: split; [|apply prefix_nil].
    all: split; [done|]. all: by intros [? ?].
  - destruct d; simpl.
    1,2: split; [done|]; split; [|apply prefix_nil];
         split; [done|]; by intros [? ?].
    rewrite (Hrun Hb). unfold Ipfs.order.
    destruct (Js.startsWith (Js.lit ["e"; "y"; "J"]%byte) apiToken); simpl;
      destruct (Ipfs.nft_storage net), (Ipfs.pinata net),
        (Ipfs.web3_storage net); simpl.
    all: split; [done|]. all: split; [by split|].
    all: repeat (apply prefix_cons || apply prefix_nil || done).
Qed.

(** Data that is [0] or the empty string, with a blank token; and a plain
    record with a key that Pinata takes. *)
Lemma X13_uploadJSON_checks_data_first_witness :
  Ipfs.uploadJSONToIPFS
    (Ipfs.mkServices N None (Ipfs.Yields 2%N) Ipfs.Throws) [] Ipfs.Falsy
    = Ipfs.mkOutcome (inr Ipfs.Data_required) [] ∧
  Ipfs.uploadJSONToIPFS
    (Ipfs.mkServices N None (Ipfs.Yields 2%N) Ipfs.Throws)
    (Js.lit ["k"]%byte) Ipfs.Plain
    = Ipfs.mkOutcome (inl 2%N) [Ipfs.Pinata].
Proof.
  split.
  - by apply (X13_uploadJSON_checks_data_first
                (Ipfs.mkServices N None (Ipfs.Yields 2%N) Ipfs.Throws) []
                Ipfs.Falsy).
  - destruct (X13_uploadJSON_checks_data_first
                (Ipfs.mkServices N None (Ipfs.Yields 2%N) Ipfs.Throws)
                (Js.lit ["k"]%byte) Ipfs.Plain) as (_ & H & _).
    rewrite H; reflexivity.
Defined.

(** ** The local store *)

Lemma solutions_key_not_KEY problemId : Store.solutions_key problemId ≠ Store.KEY.
Proof. unfold Store.solutions_key, Store.KEY. simpl. discriminate. Qed.

Lemma solutions_key_inj a b :
  Store.solutions_key a = Store.solutions_key b → a = b.
Proof. unfold Store.solutions_key. apply app_inv_head. Qed.

Lemma find_cons_hit {Item} (f : Item → bool) x l :
  f x = true → List.find f (x :: l) = Some x.
Proof. intros H. simpl. by rewrite H. Qed.




